(** * V8 heap visiting: atomic cells and the visitor dispatch table

    A shallow embedding of [src/base/atomic-utils.h] and of the table and
    body-visitor parts of [src/heap/objects-visiting.h], with the properties
    the design document states about them. *)

From Stdlib Require Import ZArith Lia Bool List.
From stdpp Require Import base option list gmap.

Local Open Scope Z_scope.

(** ** C++ integral types

    A value of an integral type is the mathematical integer it denotes: a
    signed [w]-bit type ranges over [-2^(w-1) .. 2^(w-1)-1], an unsigned one
    over [0 .. 2^w-1].  [Z.land], [Z.lor] and [Z.lnot] are the two's
    complement operations at unbounded width, so on operands that are in
    range they give what [&], [|] and [~] give after integral promotion; the
    conversion back to the declared type is the [static_cast] made at the
    assignment. *)
Module CInt.

Inductive IntType : Set :=
| Int8 | UInt8 | Int16 | UInt16 | Int32 | UInt32 | Int64 | UInt64.

Definition width (ty : IntType) : Z :=
  match ty with
  | Int8 | UInt8 => 8
  | Int16 | UInt16 => 16
  | Int32 | UInt32 => 32
  | Int64 | UInt64 => 64
  end.

Definition is_signed (ty : IntType) : bool :=
  match ty with
  | Int8 | Int16 | Int32 | Int64 => true
  | UInt8 | UInt16 | UInt32 | UInt64 => false
  end.

(** [sizeof(T)], in bytes ([CHAR_BIT] is 8). *)
Definition sizeof (ty : IntType) : Z := width ty / 8.

Definition min_value (ty : IntType) : Z :=
  if is_signed ty then - 2 ^ (width ty - 1) else 0.

Definition max_value (ty : IntType) : Z :=
  if is_signed ty then 2 ^ (width ty - 1) - 1 else 2 ^ width ty - 1.

Definition in_range (ty : IntType) (z : Z) : Prop :=
  min_value ty <= z <= max_value ty.

Definition in_rangeb (ty : IntType) (z : Z) : bool :=
  (min_value ty <=? z) && (z <=? max_value ty).

(** Two's complement wrap-around to a signed [w]-bit integer. *)
Definition wrap_signed (w z : Z) : Z :=
  (z + 2 ^ (w - 1)) mod 2 ^ w - 2 ^ (w - 1).

(** [static_cast<T>(z)]: conversion of an integer to the integral type [T],
    modulo [2^width]. *)
Definition static_cast (ty : IntType) (z : Z) : Z :=
  if is_signed ty then wrap_signed (width ty) z else z mod 2 ^ width ty.

(** Integral promotion: an operand narrower than [int] is converted to
    [int] before [<<] is applied. *)
Definition promoted (ty : IntType) : IntType :=
  if width ty <? 32 then Int32 else ty.

End CInt.

Import CInt.

(** [base::AtomicWord] is [intptr_t] and [base::Atomic32] is [int32_t]
    (64-bit target). *)
Definition kAtomicWord : IntType := Int64.
Definition kAtomic32 : IntType := Int32.


(** ** Memory, events and the execution monad

    Memory is a finite map from word addresses to the integer stored there;
    an object is named by the address of its first word ([this]).  Every
    access is logged with its memory order.  Other threads are a schedule of
    interferences: before each atomic primitive the head of the schedule is
    applied, so a load and the compare-and-swap that follows it need not see
    the same value.  With an empty schedule the execution is sequential. *)
Module Machine.

(** An address is an integer. *)
Abbreviation Address := Z (only parsing).

Inductive MemoryOrder : Set := NonAtomic | Relaxed | Acquire | Release | Barrier.

Inductive Event : Set :=
| EvLoad (order : MemoryOrder) (ptr : Address) (value : Z)
| EvStore (order : MemoryOrder) (ptr : Address) (value : Z)
| EvCompareAndSwap (order : MemoryOrder) (ptr : Address) (old_value new_value prev : Z)
| EvIncrement (order : MemoryOrder) (ptr : Address) (increment result : Z).

Inductive Interference : Set :=
| Quiet
| OtherStore (ptr : Address) (value : Z).

Record State : Type := mkState {
  mem : gmap Z Z;
  trace : list Event;
  sched : list Interference
}.

(** A run returns a value and a state, dies on a failed check ([Fatal]),
    leaves the language ([Undefined]: access to storage that is not there) or
    exhausts the iteration budget of a retry loop ([OutOfFuel]). *)
Inductive Result (A : Type) : Type :=
| Ok (a : A) (s : State)
| Fatal
| Undefined
| OutOfFuel.
Arguments Ok {A} a s.
Arguments Fatal {A}.
Arguments Undefined {A}.
Arguments OutOfFuel {A}.

Definition M (A : Type) : Type := State -> Result A.

Definition ret {A} (a : A) : M A := fun s => Ok a s.

Definition bind {A B} (m : M A) (k : A -> M B) : M B :=
  fun s =>
    match m s with
    | Ok a s' => k a s'
    | Fatal => Fatal
    | Undefined => Undefined
    | OutOfFuel => OutOfFuel
    end.

Definition fatal {A} : M A := fun _ => Fatal.
Definition undefined {A} : M A := fun _ => Undefined.
Definition out_of_fuel {A} : M A := fun _ => OutOfFuel.

Definition log (e : Event) (s : State) : State :=
  {| mem := mem s; trace := trace s ++ [e]; sched := sched s |}.

(** A state with no history and no other thread. *)
Definition sequential (m : gmap Z Z) : State :=
  {| mem := m; trace := []; sched := [] |}.

(** One scheduling point: the next interference, if any, takes effect. *)
Definition preempt : M unit :=
  fun s =>
    match sched s with
    | [] => Ok tt s
    | Quiet :: rest => Ok tt {| mem := mem s; trace := trace s; sched := rest |}
    | OtherStore ptr value :: rest =>
        Ok tt {| mem := alter (fun _ => value) ptr (mem s);
                 trace := trace s; sched := rest |}
    end.

Definition load (order : MemoryOrder) (ptr : Address) : M Z :=
  fun s =>
    match mem s !! ptr with
    | Some v => Ok v (log (EvLoad order ptr v) s)
    | None => Undefined
    end.

Definition store (order : MemoryOrder) (ptr : Address) (value : Z) : M unit :=
  fun s =>
    match mem s !! ptr with
    | Some _ =>
        Ok tt {| mem := <[ptr := value]> (mem s);
                 trace := trace s ++ [EvStore order ptr value];
                 sched := sched s |}
    | None => Undefined
    end.

(** Member initialisation in a constructor: the object is being placed at
    this address, so the word comes into existence here. *)
Definition init (ptr : Address) (value : Z) : M unit :=
  fun s =>
    Ok tt {| mem := <[ptr := value]> (mem s);
             trace := trace s ++ [EvStore NonAtomic ptr value];
             sched := sched s |}.

Definition compare_and_swap (order : MemoryOrder) (ptr : Address)
    (old_value new_value : Z) : M Z :=
  fun s =>
    match mem s !! ptr with
    | Some prev =>
        Ok prev
           {| mem := if prev =? old_value then <[ptr := new_value]> (mem s) else mem s;
              trace := trace s ++ [EvCompareAndSwap order ptr old_value new_value prev];
              sched := sched s |}
    | None => Undefined
    end.

Definition fetch_add (order : MemoryOrder) (ty : IntType) (ptr : Address)
    (increment : Z) : M Z :=
  fun s =>
    match mem s !! ptr with
    | Some prev =>
        let result := static_cast ty (prev + increment) in
        Ok result
           {| mem := <[ptr := result]> (mem s);
              trace := trace s ++ [EvIncrement order ptr increment result];
              sched := sched s |}
    | None => Undefined
    end.

(** The value a run returned, if it returned. *)
Definition result_value {A} (r : Result A) : option A :=
  match r with
  | Ok a _ => Some a
  | _ => None
  end.

(** Counted loop [for (int i = lo; i < hi; i++) body(i)]. *)
Fixpoint for_range (n : nat) (i : Z) (body : Z -> M unit) : M unit :=
  match n with
  | O => ret tt
  | S n' => bind (body i) (fun _ => for_range n' (i + 1) body)
  end.

Definition for_ (lo hi : Z) (body : Z -> M unit) : M unit :=
  for_range (Z.to_nat (hi - lo)) lo body.

(** The values [i] takes in [n] iterations of such a loop. *)
Fixpoint indices (n : nat) (i : Z) : list Z :=
  match n with
  | O => []
  | S n' => i :: indices n' (i + 1)
  end.

End Machine.

Import Machine.

Declare Scope cpp_scope.
Delimit Scope cpp_scope with cpp.
Notation "x <- m ;; k" := (bind m (fun x => k))
  (at level 100, m at next level, right associativity) : cpp_scope.
Notation "m ;; k" := (bind m (fun _ => k))
  (at level 100, right associativity) : cpp_scope.
Local Open Scope cpp_scope.

(** ** [src/base/logging.h] and [src/base/atomicops.h] *)
Module Base.

(** Modelled from the spec: the macros [DCHECK], [DCHECK_EQ] and
    [UNREACHABLE] of [src/base/logging.h] are missing.  An invariant
    violation is fatal and terminates the process; a check that holds does
    nothing. *)
Definition DCHECK (condition : bool) : M unit :=
  if condition then ret tt else fatal.

Definition DCHECK_EQ (a b : Z) : M unit := DCHECK (a =? b).

Definition UNREACHABLE {A} : M A := fatal.

(** Modelled from the spec: the primitives of [src/base/atomicops.h] are
    missing.  Each is one indivisible access to one word: a load returns the
    word, a store replaces it, a compare-and-swap returns the word it found
    and installs the new one exactly when that word is the expected one, an
    increment is a full read-modify-write that returns the new value. *)
Definition Relaxed_Load (ptr : Address) : M Z := preempt ;; load Relaxed ptr.
Definition Acquire_Load (ptr : Address) : M Z := preempt ;; load Acquire ptr.
Definition Relaxed_Store (ptr : Address) (value : Z) : M unit :=
  preempt ;; store Relaxed ptr value.
Definition Release_Store (ptr : Address) (value : Z) : M unit :=
  preempt ;; store Release ptr value.
Definition Relaxed_CompareAndSwap (ptr : Address) (old_value new_value : Z) : M Z :=
  preempt ;; compare_and_swap Relaxed ptr old_value new_value.
Definition Release_CompareAndSwap (ptr : Address) (old_value new_value : Z) : M Z :=
  preempt ;; compare_and_swap Release ptr old_value new_value.
Definition Barrier_AtomicIncrement (ptr : Address) (increment : Z) : M Z :=
  preempt ;; fetch_add Barrier kAtomicWord ptr increment.

End Base.

Import Base.

(** ** [src/base/atomic-utils.h] *)

(** [cast_helper<T>]: a [T] is kept in a [base::AtomicWord].  For an integral
    [T] both directions are [static_cast]s; for a pointer type the casts are
    [reinterpret_cast]s, which keep the bit pattern, so an address behaves
    as [UInt64] here. *)
Module cast_helper.

Definition to_storage_type (T : IntType) (value : Z) : Z :=
  static_cast kAtomicWord value.

Definition to_return_type (T : IntType) (value : Z) : Z :=
  static_cast T value.

End cast_helper.

Module AtomicNumber.
Section AtomicNumber.
Variable T : IntType.

(** [&value_] *)
Definition value_ (this : Address) : Address := this.

(** [AtomicNumber() : value_(0) {}] *)
Definition ctor (this : Address) : M unit := init (value_ this) 0.

(** [explicit AtomicNumber(T initial) : value_(initial) {}] *)
Definition ctor_initial (this : Address) (initial : Z) : M unit :=
  init (value_ this) (static_cast kAtomicWord initial).

Definition Increment (this : Address) (increment : Z) : M Z :=
  r <- Barrier_AtomicIncrement (value_ this) (static_cast kAtomicWord increment) ;;
  ret (static_cast T r).

Definition Decrement (this : Address) (decrement : Z) : M Z :=
  r <- Barrier_AtomicIncrement (value_ this)
         (static_cast kAtomicWord (- static_cast kAtomicWord decrement)) ;;
  ret (static_cast T r).

Definition Value (this : Address) : M Z :=
  w <- Acquire_Load (value_ this) ;;
  ret (static_cast T w).

Definition SetValue (this : Address) (new_value : Z) : M unit :=
  Release_Store (value_ this) (static_cast kAtomicWord new_value).

(** [operator=], [operator+=] and [operator-=] *)
Definition operator_assign (this : Address) (value : Z) : M Z :=
  SetValue this value ;; ret value.

Definition operator_add_assign (this : Address) (value : Z) : M Z :=
  Increment this value.

Definition operator_sub_assign (this : Address) (value : Z) : M Z :=
  Decrement this value.
End AtomicNumber.
End AtomicNumber.

Module NoBarrierAtomicValue.
Section NoBarrierAtomicValue.
Variable T : IntType.

Definition value_ (this : Address) : Address := this.

(** [NoBarrierAtomicValue() : value_(0) {}] *)
Definition ctor (this : Address) : M unit := init (value_ this) 0.

Definition ctor_initial (this : Address) (initial : Z) : M unit :=
  init (value_ this) (cast_helper.to_storage_type T initial).

Definition TrySetValue (this : Address) (old_value new_value : Z) : M bool :=
  prev <- Relaxed_CompareAndSwap (value_ this)
            (cast_helper.to_storage_type T old_value)
            (cast_helper.to_storage_type T new_value) ;;
  ret (prev =? cast_helper.to_storage_type T old_value).

Definition Value (this : Address) : M Z :=
  w <- Relaxed_Load (value_ this) ;;
  ret (cast_helper.to_return_type T w).

Definition SetValue (this : Address) (new_value : Z) : M unit :=
  Relaxed_Store (value_ this) (cast_helper.to_storage_type T new_value).
End NoBarrierAtomicValue.
End NoBarrierAtomicValue.

Module AtomicValue.
Section AtomicValue.
Variable T : IntType.

Definition value_ (this : Address) : Address := this.

(** [AtomicValue() : value_(0) {}] *)
Definition ctor (this : Address) : M unit := init (value_ this) 0.

Definition ctor_initial (this : Address) (initial : Z) : M unit :=
  init (value_ this) (cast_helper.to_storage_type T initial).

Definition Value (this : Address) : M Z :=
  w <- Acquire_Load (value_ this) ;;
  ret (cast_helper.to_return_type T w).

Definition TrySetValue (this : Address) (old_value new_value : Z) : M bool :=
  prev <- Release_CompareAndSwap (value_ this)
            (cast_helper.to_storage_type T old_value)
            (cast_helper.to_storage_type T new_value) ;;
  ret (prev =? cast_helper.to_storage_type T old_value).

(** The [do { ... } while (!TrySetValue(old_value, new_value))] loop of
    [SetBits]; [fuel] bounds the number of attempts. *)
Fixpoint SetBits_loop (fuel : nat) (this : Address) (bits mask : Z) : M unit :=
  match fuel with
  | O => out_of_fuel
  | S fuel' =>
      old_value <- Value this ;;
      let new_value := static_cast T (Z.lor (Z.land old_value (Z.lnot mask)) bits) in
      done <- TrySetValue this old_value new_value ;;
      if done then ret tt else SetBits_loop fuel' this bits mask
  end.

Definition SetBits (fuel : nat) (this : Address) (bits mask : Z) : M unit :=
  DCHECK_EQ (Z.land bits (Z.lnot mask)) (static_cast T 0) ;;
  SetBits_loop fuel this bits mask.

(** [SetBits(static_cast<T>(1) << bit, static_cast<T>(1) << bit)]: the shift
    is made on the promoted operand and the result converted to [T]. *)
Definition SetBit (fuel : nat) (this : Address) (bit : Z) : M unit :=
  let b := static_cast T (static_cast (promoted T) (Z.shiftl (static_cast T 1) bit)) in
  SetBits fuel this b b.

(** [SetBits(0, 1 << bit)]: here the mask is computed as an [int]. *)
Definition ClearBit (fuel : nat) (this : Address) (bit : Z) : M unit :=
  SetBits fuel this (static_cast T 0)
          (static_cast T (static_cast Int32 (Z.shiftl 1 bit))).

Definition SetValue (this : Address) (new_value : Z) : M unit :=
  Release_Store (value_ this) (cast_helper.to_storage_type T new_value).
End AtomicValue.
End AtomicValue.

(** [AtomicEnumSet<E>]: an element of the enumeration [E] is its integer
    value, [0 .. E::kLastValue]. *)
Module AtomicEnumSet.

Definition bits_ (this : Address) : Address := this.

(** [explicit AtomicEnumSet(base::AtomicWord bits = 0) : bits_(bits) {}] *)
Definition ctor (this : Address) (bits : Z) : M unit := init (bits_ this) bits.
Definition ctor_default (this : Address) : M unit := ctor this 0.

(** [STATIC_ASSERT(E::kLastValue < (sizeof(base::AtomicWord) * CHAR_BIT))] *)
Definition STATIC_ASSERT_storage (kLastValue : Z) : bool :=
  kLastValue <? sizeof kAtomicWord * 8.

Definition ToIntegral (this : Address) : M Z := Acquire_Load (bits_ this).

(** [static_cast<base::AtomicWord>(1) << element] *)
Definition Mask (element : Z) : Z :=
  static_cast kAtomicWord (Z.shiftl (static_cast kAtomicWord 1) element).

Definition IsEmpty (this : Address) : M bool :=
  w <- ToIntegral this ;;
  ret (w =? 0).

Definition Contains (this : Address) (element : Z) : M bool :=
  w <- ToIntegral this ;;
  ret (negb (Z.land w (Mask element) =? 0)).

Definition ContainsAnyOf (this set : Address) : M bool :=
  w <- ToIntegral this ;;
  w' <- ToIntegral set ;;
  ret (negb (Z.land w w' =? 0)).

Definition RemoveAll (this : Address) : M unit := Release_Store (bits_ this) 0.

(** The macro [ATOMIC_SET_WRITE(OP, NEW_VAL)]: [NEW_VAL] is an expression
    and is evaluated again at every attempt. *)
Fixpoint ATOMIC_SET_WRITE (fuel : nat) (this : Address)
    (OP : Z -> Z -> Z) (NEW_VAL : M Z) : M unit :=
  match fuel with
  | O => out_of_fuel
  | S fuel' =>
      old <- Acquire_Load (bits_ this) ;;
      new_val <- NEW_VAL ;;
      prev <- Release_CompareAndSwap (bits_ this) old (OP old new_val) ;;
      if negb (prev =? old) then ATOMIC_SET_WRITE fuel' this OP NEW_VAL else ret tt
  end.

Definition Add (fuel : nat) (this : Address) (element : Z) : M unit :=
  ATOMIC_SET_WRITE fuel this Z.lor (ret (Mask element)).

Definition Add_set (fuel : nat) (this set : Address) : M unit :=
  ATOMIC_SET_WRITE fuel this Z.lor (ToIntegral set).

Definition Remove (fuel : nat) (this : Address) (element : Z) : M unit :=
  ATOMIC_SET_WRITE fuel this Z.land (ret (Z.lnot (Mask element))).

Definition Remove_set (fuel : nat) (this set : Address) : M unit :=
  ATOMIC_SET_WRITE fuel this Z.land (w <- ToIntegral set ;; ret (Z.lnot w)).

Definition Intersect (fuel : nat) (this set : Address) : M unit :=
  ATOMIC_SET_WRITE fuel this Z.land (ToIntegral set).

(** [operator==] and [operator!=] compare the two words. *)
Definition operator_eq (this set : Address) : M bool :=
  w <- ToIntegral this ;;
  w' <- ToIntegral set ;;
  ret (w =? w').

Definition operator_ne (this set : Address) : M bool :=
  w <- ToIntegral this ;;
  w' <- ToIntegral set ;;
  ret (negb (w =? w')).

(** [operator|] builds a new set, placed here at [result]. *)
Definition operator_or (this set result : Address) : M unit :=
  w <- ToIntegral this ;;
  w' <- ToIntegral set ;;
  ctor result (Z.lor w w').

End AtomicEnumSet.

(** [AsAtomic32]: a location of type [T] accessed as a [base::Atomic32]. *)
Module AsAtomic32.
Section AsAtomic32.
Variable T : IntType.

Definition to_storage_type (value : Z) : Z := static_cast kAtomic32 value.
Definition to_return_type (value : Z) : Z := static_cast T value.
Definition to_storage_addr (value : Address) : Address := value.

Definition Acquire_Load (addr : Address) : M Z :=
  w <- Base.Acquire_Load (to_storage_addr addr) ;;
  ret (to_return_type w).

Definition Relaxed_Load (addr : Address) : M Z :=
  w <- Base.Relaxed_Load (to_storage_addr addr) ;;
  ret (to_return_type w).

Definition Release_Store (addr : Address) (new_value : Z) : M unit :=
  Base.Release_Store (to_storage_addr addr) (to_storage_type new_value).

Definition Relaxed_Store (addr : Address) (new_value : Z) : M unit :=
  Base.Relaxed_Store (to_storage_addr addr) (to_storage_type new_value).

Definition Release_CompareAndSwap (addr : Address) (old_value new_value : Z) : M Z :=
  w <- Base.Release_CompareAndSwap (to_storage_addr addr)
         (to_storage_type old_value) (to_storage_type new_value) ;;
  ret (to_return_type w).

(** The loop of [SetBits], with its early [return false]. *)
Fixpoint SetBits_loop (fuel : nat) (addr : Address) (bits mask : Z) : M bool :=
  match fuel with
  | O => out_of_fuel
  | S fuel' =>
      old_value <- Relaxed_Load addr ;;
      if Z.land old_value mask =? bits then ret false
      else
        let new_value := static_cast T (Z.lor (Z.land old_value (Z.lnot mask)) bits) in
        prev <- Release_CompareAndSwap addr old_value new_value ;;
        if negb (prev =? old_value) then SetBits_loop fuel' addr bits mask
        else ret true
  end.

Definition SetBits (fuel : nat) (addr : Address) (bits mask : Z) : M bool :=
  DCHECK_EQ (Z.land bits (Z.lnot mask)) (static_cast T 0) ;;
  SetBits_loop fuel addr bits mask.
End AsAtomic32.
End AsAtomic32.
(** [AsAtomicWord]: a location holding a pointer accessed as a
    [base::AtomicWord]; the conversions are [reinterpret_cast]s, which keep
    the bit pattern of the address. *)
Module AsAtomicWord.

Definition to_storage_type (value : Address) : Z := static_cast kAtomicWord value.
Definition to_return_type (value : Z) : Address := static_cast UInt64 value.
Definition to_storage_addr (value : Address) : Address := value.

Definition Acquire_Load (addr : Address) : M Address :=
  w <- Base.Acquire_Load (to_storage_addr addr) ;;
  ret (to_return_type w).

Definition Relaxed_Load (addr : Address) : M Address :=
  w <- Base.Relaxed_Load (to_storage_addr addr) ;;
  ret (to_return_type w).

Definition Release_Store (addr : Address) (new_value : Address) : M unit :=
  Base.Release_Store (to_storage_addr addr) (to_storage_type new_value).

Definition Relaxed_Store (addr : Address) (new_value : Address) : M unit :=
  Base.Relaxed_Store (to_storage_addr addr) (to_storage_type new_value).

Definition Release_CompareAndSwap (addr : Address) (old_value new_value : Address) : M Address :=
  w <- Base.Release_CompareAndSwap (to_storage_addr addr)
         (to_storage_type old_value) (to_storage_type new_value) ;;
  ret (to_return_type w).

End AsAtomicWord.


(** ** [src/heap/objects-visiting.h] *)

(** [enum VisitorId], generated from [VISITOR_ID_LIST]; the enumerators are
    numbered from zero in the order of the list and [kVisitorIdCount] closes
    the enumeration. *)
Inductive VisitorId : Set :=
| kVisitAllocationSite
| kVisitByteArray
| kVisitBytecodeArray
| kVisitCell
| kVisitCode
| kVisitConsString
| kVisitDataObject
| kVisitFixedArray
| kVisitFixedDoubleArray
| kVisitFixedFloat64Array
| kVisitFixedTypedArrayBase
| kVisitFreeSpace
| kVisitJSApiObject
| kVisitJSArrayBuffer
| kVisitJSFunction
| kVisitJSObject
| kVisitJSObjectFast
| kVisitJSRegExp
| kVisitJSWeakCollection
| kVisitMap
| kVisitNativeContext
| kVisitOddball
| kVisitPropertyCell
| kVisitSeqOneByteString
| kVisitSeqTwoByteString
| kVisitSharedFunctionInfo
| kVisitShortcutCandidate
| kVisitSlicedString
| kVisitSmallOrderedHashMap
| kVisitSmallOrderedHashSet
| kVisitStruct
| kVisitSymbol
| kVisitThinString
| kVisitTransitionArray
| kVisitWeakCell
| kVisitorIdCount.

Definition VisitorId_value (id : VisitorId) : Z :=
  match id with
  | kVisitAllocationSite => 0
  | kVisitByteArray => 1
  | kVisitBytecodeArray => 2
  | kVisitCell => 3
  | kVisitCode => 4
  | kVisitConsString => 5
  | kVisitDataObject => 6
  | kVisitFixedArray => 7
  | kVisitFixedDoubleArray => 8
  | kVisitFixedFloat64Array => 9
  | kVisitFixedTypedArrayBase => 10
  | kVisitFreeSpace => 11
  | kVisitJSApiObject => 12
  | kVisitJSArrayBuffer => 13
  | kVisitJSFunction => 14
  | kVisitJSObject => 15
  | kVisitJSObjectFast => 16
  | kVisitJSRegExp => 17
  | kVisitJSWeakCollection => 18
  | kVisitMap => 19
  | kVisitNativeContext => 20
  | kVisitOddball => 21
  | kVisitPropertyCell => 22
  | kVisitSeqOneByteString => 23
  | kVisitSeqTwoByteString => 24
  | kVisitSharedFunctionInfo => 25
  | kVisitShortcutCandidate => 26
  | kVisitSlicedString => 27
  | kVisitSmallOrderedHashMap => 28
  | kVisitSmallOrderedHashSet => 29
  | kVisitStruct => 30
  | kVisitSymbol => 31
  | kVisitThinString => 32
  | kVisitTransitionArray => 33
  | kVisitWeakCell => 34
  | kVisitorIdCount => 35
  end.

Definition VISITOR_ID_LIST : list VisitorId :=
  [ kVisitAllocationSite;
    kVisitByteArray;
    kVisitBytecodeArray;
    kVisitCell;
    kVisitCode;
    kVisitConsString;
    kVisitDataObject;
    kVisitFixedArray;
    kVisitFixedDoubleArray;
    kVisitFixedFloat64Array;
    kVisitFixedTypedArrayBase;
    kVisitFreeSpace;
    kVisitJSApiObject;
    kVisitJSArrayBuffer;
    kVisitJSFunction;
    kVisitJSObject;
    kVisitJSObjectFast;
    kVisitJSRegExp;
    kVisitJSWeakCollection;
    kVisitMap;
    kVisitNativeContext;
    kVisitOddball;
    kVisitPropertyCell;
    kVisitSeqOneByteString;
    kVisitSeqTwoByteString;
    kVisitSharedFunctionInfo;
    kVisitShortcutCandidate;
    kVisitSlicedString;
    kVisitSmallOrderedHashMap;
    kVisitSmallOrderedHashSet;
    kVisitStruct;
    kVisitSymbol;
    kVisitThinString;
    kVisitTransitionArray;
    kVisitWeakCell ].

(** [STATIC_ASSERT(kVisitorIdCount <= 256)]: a visitor id fits in one byte. *)
Definition STATIC_ASSERT_visitor_id_fits_byte : bool :=
  VisitorId_value kVisitorIdCount <=? 256.

(** A pointer to a [Map] or to a [HeapObject] is an address; so is a
    function pointer. *)
Abbreviation MapPtr := Z (only parsing).
Abbreviation HeapObjectPtr := Z (only parsing).
Abbreviation Callback := Z (only parsing).

(** [reinterpret_cast] between a pointer and [base::AtomicWord] keeps the bit
    pattern: an address is an unsigned 64-bit number, the word a signed one. *)
Definition reinterpret_cast_to_word (p : Address) : Z := static_cast kAtomicWord p.
Definition reinterpret_cast_to_pointer (w : Z) : Address := static_cast UInt64 w.

Module VisitorDispatchTable.

(** [&callbacks_[i]] in [base::AtomicWord callbacks_[kVisitorIdCount]];
    an index outside the array names no storage. *)
Definition callbacks_ (this : Address) (i : Z) : M Address :=
  if (0 <=? i) && (i <? VisitorId_value kVisitorIdCount)
  then ret (this + i) else undefined.

(** Storage of a table object: [kVisitorIdCount] words.  A table is a
    static data member, so it starts out zero-initialised. *)
Definition static_init (this : Address) : M unit :=
  for_ 0 (VisitorId_value kVisitorIdCount) (fun i => init (this + i) 0).

Definition CopyFrom_body (this other : Address) (i : Z) : M unit :=
  src <- callbacks_ other i ;;
  v <- load NonAtomic src ;;
  dst <- callbacks_ this i ;;
  Relaxed_Store dst v.

Definition CopyFrom (this other : Address) : M unit :=
  for_ 0 (VisitorId_value kVisitorIdCount) (CopyFrom_body this other).

Definition GetVisitorById (this : Address) (id : VisitorId) : M Callback :=
  slot <- callbacks_ this (VisitorId_value id) ;;
  w <- load NonAtomic slot ;;
  ret (reinterpret_cast_to_pointer w).

Definition Register (this : Address) (id : VisitorId) (callback : Callback) : M unit :=
  DCHECK (VisitorId_value id <? VisitorId_value kVisitorIdCount) ;;
  slot <- callbacks_ this (VisitorId_value id) ;;
  store NonAtomic slot (reinterpret_cast_to_word callback).

(** Modelled from the spec: [GetVisitor], taking a map, is only declared in
    [objects-visiting.h] (its body is in the missing
    [objects-visiting-inl.h]): it resolves the id of the map, then reads
    the slot.  [visitor_id] stands for the id the map carries. *)
Definition GetVisitor (visitor_id : MapPtr -> VisitorId)
    (this : Address) (map : MapPtr) : M Callback :=
  GetVisitorById this (visitor_id map).

(** The storage of the table at [this] exists in memory [m]. *)
Definition allocated (this : Address) (m : gmap Z Z) : Prop :=
  forall i, 0 <= i < VisitorId_value kVisitorIdCount -> is_Some (m !! (this + i)).

(** Two table objects are the same object or do not overlap. *)
Definition same_or_apart (this other : Address) : Prop :=
  this = other \/
  this + VisitorId_value kVisitorIdCount <= other \/
  other + VisitorId_value kVisitorIdCount <= this.

(** The events of one iteration of the loop of [CopyFrom] that copies the
    word [w] of slot [i]. *)
Definition CopyFrom_events (this other : Address) (src : Z -> Z) (i : Z) : list Event :=
  [EvLoad NonAtomic (other + i) (src i); EvStore Relaxed (this + i) (src i)].

End VisitorDispatchTable.

(** Code memory: the function that lives at an address.  A visit function
    of the new-space visitor takes a map and an object and returns an [int]. *)
Abbreviation VisitFunction := (Z -> Z -> M Z) (only parsing).

(** Calling through a function pointer runs the function at that address;
    calling an address that holds no function is undefined. *)
Definition call (text : gmap Z VisitFunction) (callback : Callback)
    (map : MapPtr) (object : HeapObjectPtr) : M Z :=
  match text !! callback with
  | Some f => f map object
  | None => undefined
  end.

Module StaticNewSpaceVisitor.

(** [UnreachableVisitor]: its body is [UNREACHABLE();]. *)
Definition UnreachableVisitor : VisitFunction :=
  fun map object => UNREACHABLE.

(** [return table_.GetVisitor(map)(map, obj);] *)
Definition IterateBody (text : gmap Z VisitFunction)
    (visitor_id : MapPtr -> VisitorId) (table_ : Address)
    (map : MapPtr) (obj : HeapObjectPtr) : M Z :=
  callback <- VisitorDispatchTable.GetVisitor visitor_id table_ map ;;
  call text callback map obj.

(** [VisitPointers(heap, object, start, end)]: the loop
    [for (Object** p = start; p < end; p++) StaticVisitor::VisitPointer(heap, object, p)].
    A slot address counts in slots; [VisitPointer] is the primitive of the
    concrete visitor, acting on its state [V]. *)
Fixpoint VisitPointers_loop {V : Type} (VisitPointer : Z -> Z -> Z -> V -> V)
    (heap : Address) (object : HeapObjectPtr) (n : nat) (p : Address) (v : V) : V :=
  match n with
  | O => v
  | S n' => VisitPointers_loop VisitPointer heap object n' (p + 1)
              (VisitPointer heap object p v)
  end.

Definition VisitPointers {V : Type} (VisitPointer : Z -> Z -> Z -> V -> V)
    (heap : Address) (object : HeapObjectPtr) (start end_ : Address) (v : V) : V :=
  VisitPointers_loop VisitPointer heap object (Z.to_nat (end_ - start)) start v.

(** [VisitCodeEntry]: code is not in new space, the body is empty. *)
Definition VisitCodeEntry {V : Type} (heap : Address) (object : HeapObjectPtr)
    (entry_address : Address) (v : V) : V := v.

(** A slot this visitor does not handle: it was never written (it still
    holds the zero of static initialisation) or it holds the address of
    [UnreachableVisitor]. *)
Definition unhandled (text : gmap Z VisitFunction) (table_ : Address)
    (s : State) (id : VisitorId) : Prop :=
  exists w, mem s !! (table_ + VisitorId_value id) = Some w /\
    (w = 0 \/ text !! reinterpret_cast_to_pointer w = Some UnreachableVisitor).

End StaticNewSpaceVisitor.

(** ** Body visitors

    [FlexibleBodyVisitor] and [FixedBodyVisitor] are templates over a body
    descriptor, a static visitor and a return type.  What a descriptor does
    to the visitor's world is a function on a state [V] of the visitor; the
    calls a strategy makes are recorded in order. *)
Module BodyVisitor.

Inductive DescriptorCall : Set :=
| Call_SizeOf (map : MapPtr) (object : HeapObjectPtr)
| Call_IterateBody_sized (object : HeapObjectPtr) (object_size : Z)
| Call_IterateBody (object : HeapObjectPtr).

Record VisitState (V : Type) : Type := mkVisitState {
  visitor : V;
  calls : list DescriptorCall
}.
Arguments mkVisitState {V} visitor calls.
Arguments visitor {V} v.
Arguments calls {V} v.

(** What [FlexibleBodyVisitor] uses of its [BodyDescriptor]. *)
Class FlexibleBodyDescriptor (V : Type) : Type := {
  SizeOf : MapPtr -> HeapObjectPtr -> Z;
  IterateBody_sized : HeapObjectPtr -> Z -> V -> V
}.

(** What [FixedBodyVisitor] uses of its [BodyDescriptor]. *)
Class FixedBodyDescriptor (V : Type) : Type := {
  kSize : Z;
  IterateBody : HeapObjectPtr -> V -> V
}.

(** [static_cast<ReturnType>(int)] for the return types the visitors are
    instantiated with: [int] and [void]. *)
Class ReturnType (R : Type) : Type := {
  static_cast_int : Z -> R
}.

#[export] Instance ReturnType_int : ReturnType Z := {| static_cast_int := fun size => size |}.
#[export] Instance ReturnType_void : ReturnType unit := {| static_cast_int := fun _ => tt |}.

Definition invoke {V} (c : DescriptorCall) (effect : V -> V) (st : VisitState V) : VisitState V :=
  {| visitor := effect (visitor st); calls := calls st ++ [c] |}.

Definition FlexibleBodyVisitor_Visit {V R} `{FlexibleBodyDescriptor V} `{ReturnType R}
    (map : MapPtr) (object : HeapObjectPtr) (st : VisitState V) : R * VisitState V :=
  let object_size := SizeOf map object in
  let st1 := invoke (Call_SizeOf map object) (fun v => v) st in
  let st2 := invoke (Call_IterateBody_sized object object_size)
                    (IterateBody_sized object object_size) st1 in
  (static_cast_int object_size, st2).

Definition FixedBodyVisitor_Visit {V R} `{FixedBodyDescriptor V} `{ReturnType R}
    (map : MapPtr) (object : HeapObjectPtr) (st : VisitState V) : R * VisitState V :=
  let st1 := invoke (Call_IterateBody object) (IterateBody object) st in
  (static_cast_int kSize, st1).

Definition is_IterateBody (c : DescriptorCall) : bool :=
  match c with
  | Call_SizeOf _ _ => false
  | Call_IterateBody_sized _ _ | Call_IterateBody _ => true
  end.

Definition count_IterateBody (l : list DescriptorCall) : nat :=
  length (List.filter is_IterateBody l).

End BodyVisitor.

Import BodyVisitor.

(** ** The marking visitor: [JSApiObjectVisitor] *)
Module StaticMarkingVisitor.

(** What [TracePossibleWrapper] uses of the heap: whether the local embedder
    tracer is in use, whether an object is a [JSObject], and the effect of
    [Heap::TracePossibleWrapper] on the visitor's world. *)
Record HeapInterface (V : Type) : Type := mkHeapInterface {
  InUse : V -> bool;
  IsJSObject : HeapObjectPtr -> bool;
  Heap_TracePossibleWrapper : HeapObjectPtr -> V -> V
}.
Arguments InUse {V} h v.
Arguments IsJSObject {V} h object.
Arguments Heap_TracePossibleWrapper {V} h object v.

(** [JSApiObjectVisitor::TracePossibleWrapper]; [None] is the fatal failure
    of its [DCHECK(object->IsJSObject())]. *)
Definition TracePossibleWrapper {V : Type} (heap : HeapInterface V)
    (object : HeapObjectPtr) (st : VisitState V) : option (VisitState V) :=
  if InUse heap (visitor st) then
    if IsJSObject heap object
    then Some {| visitor := Heap_TracePossibleWrapper heap object (visitor st);
                 calls := calls st |}
    else None
  else Some st.

(** [JSApiObjectVisitor::Visit]: [TracePossibleWrapper(object)], then
    [JSObjectVisitor::Visit(map, object)], the variable-size strategy over
    [JSObject::BodyDescriptor] with return type [void]. *)
Definition JSApiObjectVisitor_Visit {V : Type} `{FlexibleBodyDescriptor V}
    (heap : HeapInterface V) (map : MapPtr) (object : HeapObjectPtr)
    (st : VisitState V) : option (unit * VisitState V) :=
  match TracePossibleWrapper heap object st with
  | Some st1 => Some (FlexibleBodyVisitor_Visit (R := unit) map object st1)
  | None => None
  end.

End StaticMarkingVisitor.

(** ** Visitor-identity assignment *)
Module StaticVisitorBase.

(** Modelled from the spec: [StaticVisitorBase::GetVisitorId] is only
    declared in [objects-visiting.h]; its body and the size helper the
    comment on [enum VisitorId] refers to are missing.  For a plain-data
    shape the id is [base_id + (size_in_words - 2)] for [size_in_words] in
    [2 .. N]; anything outside that range, or any shape flagged as having
    unboxed inline fields, maps to the designated generic id. *)
Definition GetVisitorIdForSize (base_id generic_id N : Z)
    (size_in_words : Z) (has_unboxed_fields : bool) : Z :=
  if has_unboxed_fields then generic_id
  else if (2 <=? size_in_words) && (size_in_words <=? N)
       then base_id + (size_in_words - 2)
       else generic_id.

(** The ids of the size-specialised visitors: [base_id .. base_id + N - 2]. *)
Definition specialized (base_id N id : Z) : Prop :=
  base_id <= id <= base_id + N - 2.

End StaticVisitorBase.

(** * Properties *)

(** ** Casts and ranges *)

Lemma width_pos ty : 0 < width ty.
Proof. destruct ty; reflexivity. Qed.

Lemma in_rangeb_spec ty z : in_rangeb ty z = true <-> in_range ty z.
Proof. unfold in_rangeb, in_range. rewrite andb_true_iff, !Z.leb_le. tauto. Qed.

Lemma pow2_split w : 0 < w -> 2 ^ w = 2 * 2 ^ (w - 1).
Proof.
  intros Hw. replace w with (Z.succ (w - 1)) at 1 by lia.
  rewrite Z.pow_succ_r by lia. reflexivity.
Qed.

Lemma static_cast_in_range ty z : in_range ty (static_cast ty z).
Proof.
  unfold in_range, static_cast, min_value, max_value, wrap_signed.
  pose proof (width_pos ty) as Hw.
  pose proof (pow2_split _ Hw) as Hp.
  assert (0 < 2 ^ (width ty - 1)) by (apply Z.pow_pos_nonneg; lia).
  destruct (is_signed ty).
  - pose proof (Z.mod_pos_bound (z + 2 ^ (width ty - 1)) (2 ^ width ty)). lia.
  - pose proof (Z.mod_pos_bound z (2 ^ width ty)). lia.
Qed.

Lemma static_cast_id ty z : in_range ty z -> static_cast ty z = z.
Proof.
  unfold in_range, static_cast, min_value, max_value, wrap_signed.
  pose proof (width_pos ty) as Hw.
  pose proof (pow2_split _ Hw) as Hp.
  destruct (is_signed ty); intros Hz.
  - rewrite Z.mod_small by lia. lia.
  - apply Z.mod_small. lia.
Qed.

Lemma testbit_small u k i : 0 <= u < 2 ^ k -> 0 <= k <= i -> Z.testbit u i = false.
Proof.
  intros Hu Hk. rewrite <- (Z.mod_small u (2 ^ k)) by lia.
  apply Z.mod_pow2_bits_high. lia.
Qed.

Lemma wrap_signed_cases w z :
  0 < w ->
  let u := z mod 2 ^ w in
  wrap_signed w z = if u <? 2 ^ (w - 1) then u else u - 2 ^ w.
Proof.
  intros Hw u. unfold wrap_signed.
  pose proof (pow2_split _ Hw) as Hp.
  assert (Hm : 0 < 2 ^ (w - 1)) by (apply Z.pow_pos_nonneg; lia).
  assert (Hu : 0 <= u < 2 ^ w) by (apply Z.mod_pos_bound; lia).
  rewrite <- Z.add_mod_idemp_l by lia. fold u.
  destruct (Z.ltb_spec u (2 ^ (w - 1))).
  - rewrite Z.mod_small by lia. lia.
  - replace (u + 2 ^ (w - 1)) with ((u + 2 ^ (w - 1) - 2 ^ w) + 1 * 2 ^ w) by lia.
    rewrite Z.mod_add by lia. rewrite Z.mod_small by lia. lia.
Qed.

(** The bits of a cast: the low [width] bits are kept; above them a signed
    type repeats its sign bit and an unsigned type has zeros. *)
Lemma testbit_static_cast ty z i :
  0 <= i ->
  Z.testbit (static_cast ty z) i =
    if i <? width ty then Z.testbit z i
    else is_signed ty && Z.testbit z (width ty - 1).
Proof.
  intros Hi. pose proof (width_pos ty) as Hw. unfold static_cast.
  destruct (is_signed ty); simpl.
  - rewrite wrap_signed_cases by assumption. cbv zeta.
    set (w := width ty) in *. set (u := z mod 2 ^ w).
    pose proof (pow2_split _ Hw) as Hp.
    assert (Hu : 0 <= u < 2 ^ w) by (apply Z.mod_pos_bound; apply Z.pow_pos_nonneg; lia).
    assert (Hlow : forall j, 0 <= j < w -> Z.testbit u j = Z.testbit z j)
      by (intros j Hj; apply Z.mod_pow2_bits_low; lia).
    destruct (Z.ltb_spec u (2 ^ (w - 1))) as [Hlt | Hge].
    + assert (Hs : Z.testbit z (w - 1) = false)
        by (rewrite <- Hlow by lia; apply (testbit_small u (w - 1)); lia).
      rewrite Hs. destruct (Z.ltb_spec i w).
      * apply Hlow. lia.
      * apply (testbit_small u (w - 1)); lia.
    + set (x := 2 ^ w - 1 - u).
      assert (Hx : 0 <= x < 2 ^ (w - 1)) by (unfold x; lia).
      assert (Hn : u - 2 ^ w = Z.lnot x) by (unfold Z.lnot, x; lia).
      assert (Hhigh : forall j, w - 1 <= j -> Z.testbit (u - 2 ^ w) j = true).
      { intros j Hj. rewrite Hn, Z.lnot_spec by lia.
        rewrite (testbit_small x (w - 1)); [reflexivity | lia | lia]. }
      assert (Hsame : forall j, 0 <= j < w -> Z.testbit (u - 2 ^ w) j = Z.testbit u j).
      { intros j Hj. rewrite <- (Z.mod_pow2_bits_low (u - 2 ^ w) w j) by lia.
        replace (u - 2 ^ w) with (u + (-1) * 2 ^ w) by lia.
        rewrite Z.mod_add by lia. rewrite Z.mod_small by lia. reflexivity. }
      assert (Hs : Z.testbit z (w - 1) = true).
      { rewrite <- Hlow by lia. rewrite <- Hsame by lia. apply Hhigh. lia. }
      rewrite Hs. destruct (Z.ltb_spec i w).
      * rewrite Hsame by lia. apply Hlow. lia.
      * apply Hhigh. lia.
  - destruct (Z.ltb_spec i (width ty)).
    + apply Z.mod_pow2_bits_low. lia.
    + apply Z.mod_pow2_bits_high. lia.
Qed.

(** A value is in range exactly when the cast leaves it alone. *)
Lemma in_range_iff_cast ty z : in_range ty z <-> static_cast ty z = z.
Proof.
  split; [apply static_cast_id |].
  intros <-. apply static_cast_in_range.
Qed.

Lemma testbit_in_range_high ty z i :
  in_range ty z -> width ty <= i ->
  Z.testbit z i = is_signed ty && Z.testbit z (width ty - 1).
Proof.
  intros Hz Hi. pose proof (width_pos ty).
  rewrite <- (static_cast_id ty z Hz) at 1.
  rewrite testbit_static_cast by lia.
  destruct (Z.ltb_spec i (width ty)); [lia | reflexivity].
Qed.

(** Bitwise criterion for being in range. *)
Lemma in_range_of_bits ty z :
  (forall i, width ty <= i -> Z.testbit z i = is_signed ty && Z.testbit z (width ty - 1)) ->
  in_range ty z.
Proof.
  intros H. apply in_range_iff_cast. apply Z.bits_inj'. intros i Hi.
  rewrite testbit_static_cast by assumption.
  destruct (Z.ltb_spec i (width ty)); [reflexivity |].
  symmetry. apply H. assumption.
Qed.

Ltac bits_high ty :=
  repeat match goal with
         | Hr : in_range ty ?v, Hi : width ty <= ?i |- context [Z.testbit ?v ?i] =>
             rewrite (testbit_in_range_high ty v i Hr Hi)
         end.

Lemma in_range_lor ty a b : in_range ty a -> in_range ty b -> in_range ty (Z.lor a b).
Proof.
  intros Ha Hb. apply in_range_of_bits. intros i Hi.
  rewrite !Z.lor_spec. bits_high ty.
  destruct (is_signed ty), (Z.testbit a (width ty - 1)), (Z.testbit b (width ty - 1)); reflexivity.
Qed.

(** Clearing bits of an in-range value keeps it in range, whatever the
    (possibly negative) complement looks like above the width. *)
Lemma in_range_land_lnot ty a b :
  in_range ty a -> in_range ty b -> in_range ty (Z.land a (Z.lnot b)).
Proof.
  intros Ha Hb. apply in_range_of_bits. intros i Hi. pose proof (width_pos ty).
  rewrite !Z.land_spec, !Z.lnot_spec by lia. bits_high ty.
  destruct (is_signed ty), (Z.testbit a (width ty - 1)), (Z.testbit b (width ty - 1)); reflexivity.
Qed.

(** Storing a value of a type no wider than the storage type and reading it
    back gives the value: the [STATIC_ASSERT]s on [sizeof(T)]. *)
Lemma static_cast_roundtrip ty storage v :
  width ty <= width storage -> in_range ty v ->
  static_cast ty (static_cast storage v) = v.
Proof.
  intros Hw Hv. apply Z.bits_inj'. intros i Hi.
  pose proof (width_pos ty). pose proof (width_pos storage).
  rewrite testbit_static_cast by assumption.
  destruct (Z.ltb_spec i (width ty)).
  - rewrite testbit_static_cast by assumption.
    destruct (Z.ltb_spec i (width storage)); [reflexivity | lia].
  - rewrite testbit_static_cast by lia.
    destruct (Z.ltb_spec (width ty - 1) (width storage)); [| lia].
    symmetry. apply testbit_in_range_high; assumption.
Qed.

Lemma STATIC_ASSERT_sizeof_AtomicWord ty : sizeof ty <= sizeof kAtomicWord.
Proof. destruct ty; vm_compute; discriminate. Qed.

Lemma width_le_AtomicWord ty : width ty <= width kAtomicWord.
Proof. destruct ty; vm_compute; discriminate. Qed.


(** ** Running the primitives *)

Lemma bind_Ok {A B} (m : M A) (k : A -> M B) s a s' :
  m s = Ok a s' -> bind m k s = k a s'.
Proof. unfold bind. intros ->. reflexivity. Qed.

Lemma preempt_sequential s : sched s = [] -> preempt s = Ok tt s.
Proof. unfold preempt. intros ->. reflexivity. Qed.

Lemma Acquire_Load_sequential s ptr w :
  sched s = [] -> mem s !! ptr = Some w ->
  Acquire_Load ptr s = Ok w (log (EvLoad Acquire ptr w) s).
Proof.
  intros Hs Hm. unfold Acquire_Load.
  rewrite (bind_Ok _ _ _ _ _ (preempt_sequential s Hs)).
  unfold load. rewrite Hm. reflexivity.
Qed.

Lemma Relaxed_Load_sequential s ptr w :
  sched s = [] -> mem s !! ptr = Some w ->
  Relaxed_Load ptr s = Ok w (log (EvLoad Relaxed ptr w) s).
Proof.
  intros Hs Hm. unfold Relaxed_Load.
  rewrite (bind_Ok _ _ _ _ _ (preempt_sequential s Hs)).
  unfold load. rewrite Hm. reflexivity.
Qed.

Lemma Release_CompareAndSwap_sequential s ptr old_value new_value prev :
  sched s = [] -> mem s !! ptr = Some prev ->
  Release_CompareAndSwap ptr old_value new_value s =
    Ok prev {| mem := if prev =? old_value then <[ptr := new_value]> (mem s) else mem s;
               trace := trace s ++ [EvCompareAndSwap Release ptr old_value new_value prev];
               sched := [] |}.
Proof.
  intros Hs Hm. unfold Release_CompareAndSwap.
  rewrite (bind_Ok _ _ _ _ _ (preempt_sequential s Hs)).
  unfold compare_and_swap. rewrite Hm, Hs. reflexivity.
Qed.

Lemma Relaxed_Store_sequential s ptr value old :
  sched s = [] -> mem s !! ptr = Some old ->
  Relaxed_Store ptr value s =
    Ok tt {| mem := <[ptr := value]> (mem s);
             trace := trace s ++ [EvStore Relaxed ptr value];
             sched := [] |}.
Proof.
  intros Hs Hm. unfold Relaxed_Store.
  rewrite (bind_Ok _ _ _ _ _ (preempt_sequential s Hs)).
  unfold store. rewrite Hm, Hs. reflexivity.
Qed.

(** ** The bitmask cell *)

Lemma static_cast_zero ty : static_cast ty 0 = 0.
Proof. destruct ty; reflexivity. Qed.

Lemma to_storage_roundtrip T v :
  in_range T v ->
  cast_helper.to_return_type T (cast_helper.to_storage_type T v) = v.
Proof.
  intros Hv. unfold cast_helper.to_return_type, cast_helper.to_storage_type.
  apply static_cast_roundtrip; [apply width_le_AtomicWord | assumption].
Qed.

(** [(v & ~mask) | bits] is again a value of the type. *)
Lemma in_range_set_bits T v bits mask :
  in_range T v -> in_range T bits -> in_range T mask ->
  in_range T (Z.lor (Z.land v (Z.lnot mask)) bits).
Proof.
  intros Hv Hb Hm. apply in_range_lor; [| assumption].
  apply in_range_land_lnot; assumption.
Qed.

(** Bit by bit: where the mask has a one the bit comes from [bits], elsewhere
    from the old value. *)
Lemma testbit_set_bits v bits mask i :
  0 <= i -> Z.land bits (Z.lnot mask) = 0 ->
  Z.testbit (Z.lor (Z.land v (Z.lnot mask)) bits) i =
    if Z.testbit mask i then Z.testbit bits i else Z.testbit v i.
Proof.
  intros Hi Hd.
  assert (Hbit : Z.testbit bits i && negb (Z.testbit mask i) = false).
  { rewrite <- Z.lnot_spec, <- Z.land_spec by assumption. rewrite Hd. apply Z.bits_0. }
  rewrite Z.lor_spec, Z.land_spec, Z.lnot_spec by assumption.
  destruct (Z.testbit mask i), (Z.testbit bits i), (Z.testbit v i);
    simpl in *; congruence.
Qed.

Lemma AtomicValue_Value_sequential T s this v :
  sched s = [] -> in_range T v ->
  mem s !! this = Some (cast_helper.to_storage_type T v) ->
  AtomicValue.Value T this s =
    Ok v (log (EvLoad Acquire this (cast_helper.to_storage_type T v)) s).
Proof.
  intros Hs Hv Hm. unfold AtomicValue.Value, AtomicValue.value_.
  rewrite (bind_Ok _ _ _ _ _ (Acquire_Load_sequential s this _ Hs Hm)).
  unfold ret. rewrite to_storage_roundtrip by assumption. reflexivity.
Qed.

(** C6.  Sequentially, on a cell holding [v], [SetBits(bits, mask)] with
    [bits & ~mask == 0] completes at its first attempt (any positive budget
    suffices) after one acquire load and one release compare-and-swap, and
    leaves [(v & ~mask) | bits] in the cell: that value is in range for the
    type, reading the cell returns it, and bit by bit it has the bits of
    [bits] where the mask is set and the bits of [v] elsewhere. *)
Theorem AtomicValue_SetBits_replaces_masked_bits
    (T : IntType) (fuel : nat) (this : Address) (s : State) (v bits mask : Z) :
  sched s = [] ->
  in_range T v -> in_range T bits -> in_range T mask ->
  Z.land bits (Z.lnot mask) = 0 ->
  mem s !! this = Some (cast_helper.to_storage_type T v) ->
  let new_value := Z.lor (Z.land v (Z.lnot mask)) bits in
  let s' := {| mem := <[this := cast_helper.to_storage_type T new_value]> (mem s);
               trace := trace s ++
                 [EvLoad Acquire this (cast_helper.to_storage_type T v);
                  EvCompareAndSwap Release this
                    (cast_helper.to_storage_type T v)
                    (cast_helper.to_storage_type T new_value)
                    (cast_helper.to_storage_type T v)];
               sched := [] |} in
  AtomicValue.SetBits T (S fuel) this bits mask s = Ok tt s' /\
  AtomicValue.Value T this s' =
    Ok new_value (log (EvLoad Acquire this (cast_helper.to_storage_type T new_value)) s') /\
  in_range T new_value /\
  (forall i, 0 <= i ->
     Z.testbit new_value i = if Z.testbit mask i then Z.testbit bits i else Z.testbit v i).
Proof.
  intros Hs Hv Hb Hm Hd Hmem new_value s'.
  assert (Hnew : in_range T new_value) by (apply in_range_set_bits; assumption).
  split; [| split; [| split]].
  - unfold AtomicValue.SetBits, DCHECK_EQ, DCHECK.
    rewrite Hd, static_cast_zero. simpl Z.eqb. cbv iota.
    unfold bind at 1, ret at 1. cbn [AtomicValue.SetBits_loop].
    rewrite (bind_Ok _ _ _ _ _ (AtomicValue_Value_sequential T s this v Hs Hv Hmem)).
    fold new_value. rewrite (static_cast_id T new_value Hnew).
    unfold AtomicValue.TrySetValue, AtomicValue.value_.
    erewrite (bind_Ok (bind _ _)).
    2:{ erewrite bind_Ok.
        2:{ apply Release_CompareAndSwap_sequential; [exact Hs | exact Hmem]. }
        reflexivity. }
    rewrite Z.eqb_refl. unfold ret, log. simpl.
    rewrite <- app_assoc. reflexivity.
  - apply AtomicValue_Value_sequential; [reflexivity | assumption |].
    simpl. apply lookup_insert_eq.
  - assumption.
  - intros i Hi. apply testbit_set_bits; assumption.
Qed.

(** ** The type-erased accessors *)

Lemma AsAtomic32_roundtrip T v :
  width T <= width kAtomic32 -> in_range T v ->
  AsAtomic32.to_return_type T (AsAtomic32.to_storage_type v) = v.
Proof.
  intros Hw Hv. unfold AsAtomic32.to_return_type, AsAtomic32.to_storage_type.
  apply static_cast_roundtrip; assumption.
Qed.

(** For a type as wide as [base::Atomic32] every word is the image of the
    value it is read as. *)
Lemma AsAtomic32_same_width_word T w :
  width T = width kAtomic32 -> in_range kAtomic32 w ->
  AsAtomic32.to_storage_type (AsAtomic32.to_return_type T w) = w.
Proof.
  intros Hw Hr. unfold AsAtomic32.to_return_type, AsAtomic32.to_storage_type.
  apply static_cast_roundtrip; [lia | assumption].
Qed.

Lemma AsAtomic32_Relaxed_Load_sequential T s addr v :
  sched s = [] -> width T <= width kAtomic32 -> in_range T v ->
  mem s !! addr = Some (AsAtomic32.to_storage_type v) ->
  AsAtomic32.Relaxed_Load T addr s =
    Ok v (log (EvLoad Relaxed addr (AsAtomic32.to_storage_type v)) s).
Proof.
  intros Hs Hw Hv Hm. unfold AsAtomic32.Relaxed_Load, AsAtomic32.to_storage_addr.
  rewrite (bind_Ok _ _ _ _ _ (Relaxed_Load_sequential s addr _ Hs Hm)).
  unfold ret. rewrite AsAtomic32_roundtrip by assumption. reflexivity.
Qed.

(** C8.  Sequentially, on a location whose [Atomic32] word is the image of
    the value [v] of a type no wider than [Atomic32], [AsAtomic32::SetBits]
    with [bits & ~mask == 0] completes at its first attempt.  When
    [(v & mask) == bits] it returns [false] after a single relaxed load: the
    memory is unchanged and no compare-and-swap or store is issued.
    Otherwise it returns [true] after one relaxed load and one release
    compare-and-swap that installs [(v & ~mask) | bits], which is in range
    and is what the location then reads as. *)
Theorem AsAtomic32_SetBits_skips_or_installs
    (T : IntType) (fuel : nat) (addr : Address) (s : State) (v bits mask : Z) :
  sched s = [] ->
  width T <= width kAtomic32 ->
  in_range T v -> in_range T bits -> in_range T mask ->
  Z.land bits (Z.lnot mask) = 0 ->
  mem s !! addr = Some (AsAtomic32.to_storage_type v) ->
  let w := AsAtomic32.to_storage_type v in
  let new_value := Z.lor (Z.land v (Z.lnot mask)) bits in
  let w' := AsAtomic32.to_storage_type new_value in
  let s' := {| mem := <[addr := w']> (mem s);
               trace := trace s ++
                 [EvLoad Relaxed addr w; EvCompareAndSwap Release addr w w' w];
               sched := [] |} in
  (Z.land v mask = bits ->
     AsAtomic32.SetBits T (S fuel) addr bits mask s =
       Ok false {| mem := mem s; trace := trace s ++ [EvLoad Relaxed addr w];
                   sched := [] |}) /\
  (Z.land v mask <> bits ->
     AsAtomic32.SetBits T (S fuel) addr bits mask s = Ok true s' /\
     in_range T new_value /\
     AsAtomic32.Relaxed_Load T addr s' = Ok new_value (log (EvLoad Relaxed addr w') s')).
Proof.
  intros Hs Hw Hv Hb Hm Hd Hmem w new_value w' s'.
  assert (Hnew : in_range T new_value) by (apply in_range_set_bits; assumption).
  assert (Hstart : forall k : unit -> M bool,
            bind (DCHECK_EQ (Z.land bits (Z.lnot mask)) (static_cast T 0)) k s = k tt s).
  { intros k. unfold DCHECK_EQ, DCHECK. rewrite Hd, static_cast_zero. reflexivity. }
  split.
  - intros Heq. unfold AsAtomic32.SetBits. rewrite Hstart.
    cbn [AsAtomic32.SetBits_loop].
    rewrite (bind_Ok _ _ _ _ _
               (AsAtomic32_Relaxed_Load_sequential T s addr v Hs Hw Hv Hmem)).
    rewrite Heq, Z.eqb_refl. unfold ret, log. rewrite Hs. reflexivity.
  - intros Hne. split; [| split].
    + unfold AsAtomic32.SetBits. rewrite Hstart.
      cbn [AsAtomic32.SetBits_loop].
      rewrite (bind_Ok _ _ _ _ _
                 (AsAtomic32_Relaxed_Load_sequential T s addr v Hs Hw Hv Hmem)).
      apply Z.eqb_neq in Hne. rewrite Hne.
      fold new_value. rewrite (static_cast_id T new_value Hnew).
      unfold AsAtomic32.Release_CompareAndSwap, AsAtomic32.to_storage_addr.
      erewrite (bind_Ok (bind _ _)).
      2:{ erewrite bind_Ok.
          2:{ apply Release_CompareAndSwap_sequential; [exact Hs | exact Hmem]. }
          reflexivity. }
      rewrite AsAtomic32_roundtrip by assumption.
      rewrite !Z.eqb_refl. unfold ret, log. simpl.
      rewrite <- app_assoc. reflexivity.
    + assumption.
    + apply AsAtomic32_Relaxed_Load_sequential;
        [reflexivity | assumption | assumption |].
      simpl. apply lookup_insert_eq.
Qed.

(** ** The atomic enum set *)

Lemma testbit_Mask e i :
  0 <= e -> 0 <= i ->
  Z.testbit (AtomicEnumSet.Mask e) i = if i <? 64 then e =? i else e =? 63.
Proof.
  intros He Hi. unfold AtomicEnumSet.Mask.
  rewrite testbit_static_cast by assumption.
  change (static_cast kAtomicWord 1) with 1.
  rewrite Z.shiftl_1_l.
  change (width kAtomicWord) with 64. change (is_signed kAtomicWord) with true.
  change (64 - 1) with 63. rewrite andb_true_l.
  destruct (Z.ltb_spec i 64); apply Z.pow2_bits_eqb; assumption.
Qed.

Lemma in_range_Mask e : in_range kAtomicWord (AtomicEnumSet.Mask e).
Proof. apply static_cast_in_range. Qed.

(** On a word of the set, the test of [Contains] reads bit [e]. *)
Lemma land_Mask_eqb w e :
  in_range kAtomicWord w -> 0 <= e < 64 ->
  (Z.land w (AtomicEnumSet.Mask e) =? 0) = negb (Z.testbit w e).
Proof.
  intros Hw He. destruct (Z.testbit w e) eqn:Hbit; simpl.
  - apply Z.eqb_neq. intros H0.
    assert (Hc : Z.testbit (Z.land w (AtomicEnumSet.Mask e)) e = false)
      by (rewrite H0; apply Z.bits_0).
    rewrite Z.land_spec, Hbit, testbit_Mask in Hc by lia.
    destruct (Z.ltb_spec e 64); [| lia].
    rewrite Z.eqb_refl in Hc. discriminate.
  - apply Z.eqb_eq. apply Z.bits_inj'. intros i Hi.
    rewrite Z.bits_0, Z.land_spec, testbit_Mask by lia.
    destruct (Z.ltb_spec i 64).
    + destruct (Z.eqb_spec e i); [subst; rewrite Hbit |]; apply andb_false_r || reflexivity.
    + destruct (Z.eqb_spec e 63); [| apply andb_false_r]. subst e.
      rewrite (testbit_in_range_high kAtomicWord w i Hw) by (change (width kAtomicWord) with 64; lia).
      change (width kAtomicWord - 1) with 63. rewrite Hbit. reflexivity.
Qed.

Lemma testbit_Add w e e' :
  0 <= e < 64 -> 0 <= e' < 64 ->
  Z.testbit (Z.lor w (AtomicEnumSet.Mask e)) e' = Z.testbit w e' || (e =? e').
Proof.
  intros He He'. rewrite Z.lor_spec, testbit_Mask by lia.
  destruct (Z.ltb_spec e' 64); [reflexivity | lia].
Qed.

Lemma testbit_Remove w e e' :
  0 <= e < 64 -> 0 <= e' < 64 ->
  Z.testbit (Z.land w (Z.lnot (AtomicEnumSet.Mask e))) e' = Z.testbit w e' && negb (e =? e').
Proof.
  intros He He'. rewrite Z.land_spec, Z.lnot_spec, testbit_Mask by lia.
  destruct (Z.ltb_spec e' 64); [reflexivity | lia].
Qed.

Lemma in_range_Add w e :
  in_range kAtomicWord w -> in_range kAtomicWord (Z.lor w (AtomicEnumSet.Mask e)).
Proof. intros Hw. apply in_range_lor; [assumption | apply in_range_Mask]. Qed.

Lemma in_range_Remove w e :
  in_range kAtomicWord w ->
  in_range kAtomicWord (Z.land w (Z.lnot (AtomicEnumSet.Mask e))).
Proof. intros Hw. apply in_range_land_lnot; [assumption | apply in_range_Mask]. Qed.

(** One successful attempt of [ATOMIC_SET_WRITE]: an acquire load and a
    release compare-and-swap that installs [OP old NEW_VAL]. *)
Lemma ATOMIC_SET_WRITE_sequential fuel this OP new_val s w :
  sched s = [] -> mem s !! AtomicEnumSet.bits_ this = Some w ->
  AtomicEnumSet.ATOMIC_SET_WRITE (S fuel) this OP (ret new_val) s =
    Ok tt {| mem := <[AtomicEnumSet.bits_ this := OP w new_val]> (mem s);
             trace := trace s ++
               [EvLoad Acquire (AtomicEnumSet.bits_ this) w;
                EvCompareAndSwap Release (AtomicEnumSet.bits_ this) w (OP w new_val) w];
             sched := [] |}.
Proof.
  intros Hs Hm. cbn [AtomicEnumSet.ATOMIC_SET_WRITE].
  rewrite (bind_Ok _ _ _ _ _ (Acquire_Load_sequential s _ w Hs Hm)).
  unfold ret at 1. unfold bind at 1.
  erewrite bind_Ok.
  2:{ apply Release_CompareAndSwap_sequential; [exact Hs | exact Hm]. }
  rewrite !Z.eqb_refl. unfold ret, log. simpl.
  rewrite <- app_assoc. reflexivity.
Qed.

Lemma Contains_sequential this e s w :
  sched s = [] -> mem s !! AtomicEnumSet.bits_ this = Some w ->
  in_range kAtomicWord w -> 0 <= e < 64 ->
  AtomicEnumSet.Contains this e s =
    Ok (Z.testbit w e) (log (EvLoad Acquire (AtomicEnumSet.bits_ this) w) s).
Proof.
  intros Hs Hm Hw He. unfold AtomicEnumSet.Contains, AtomicEnumSet.ToIntegral.
  rewrite (bind_Ok _ _ _ _ _ (Acquire_Load_sequential s _ w Hs Hm)).
  unfold ret. rewrite land_Mask_eqb, negb_involutive by assumption. reflexivity.
Qed.

Lemma ATOMIC_SET_WRITE_twice fuel this OP1 v1 OP2 v2 s w :
  sched s = [] -> mem s !! AtomicEnumSet.bits_ this = Some w ->
  exists s',
    (AtomicEnumSet.ATOMIC_SET_WRITE (S fuel) this OP1 (ret v1) ;;
     AtomicEnumSet.ATOMIC_SET_WRITE (S fuel) this OP2 (ret v2)) s = Ok tt s' /\
    mem s' = <[AtomicEnumSet.bits_ this := OP2 (OP1 w v1) v2]> (mem s).
Proof.
  intros Hs Hm. eexists. split.
  - rewrite (bind_Ok _ _ _ _ _ (ATOMIC_SET_WRITE_sequential fuel this OP1 v1 s w Hs Hm)).
    apply ATOMIC_SET_WRITE_sequential; [reflexivity |].
    simpl. apply lookup_insert_eq.
  - simpl. apply insert_insert_eq.
Qed.

Lemma Add_Remove_words_commute w e e' :
  0 <= e < 64 -> 0 <= e' < 64 -> e' <> e ->
  Z.land (Z.lor w (AtomicEnumSet.Mask e)) (Z.lnot (AtomicEnumSet.Mask e')) =
  Z.lor (Z.land w (Z.lnot (AtomicEnumSet.Mask e'))) (AtomicEnumSet.Mask e).
Proof.
  intros He He' Hne. apply Z.bits_inj'. intros i Hi.
  rewrite !Z.land_spec, !Z.lor_spec, !Z.land_spec, !Z.lnot_spec by assumption.
  rewrite !testbit_Mask by lia.
  destruct (Z.testbit w i), (Z.ltb_spec i 64), (Z.eqb_spec e i), (Z.eqb_spec e' i),
    (Z.eqb_spec e 63), (Z.eqb_spec e' 63); simpl; try reflexivity; lia.
Qed.

(** C10.  Sequentially, on a set whose word is [w], [Add(e)] and [Remove(e)]
    complete at their first attempt; after [Add(e)] the set contains [e],
    after [Remove(e)] it does not, and for any other element [e'] the answer
    of [Contains(e')] is what it was before (bit [e'] of [w]).  A second
    [Add(e)] leaves the stored word as it is, and for distinct elements the
    two orders of [Add]/[Add], [Remove]/[Remove] and [Add]/[Remove] store
    the same word. *)
Theorem AtomicEnumSet_sequential_set_semantics
    (fuel : nat) (this : Address) (s : State) (w e e' : Z) :
  sched s = [] ->
  mem s !! AtomicEnumSet.bits_ this = Some w ->
  in_range kAtomicWord w ->
  0 <= e < 64 -> 0 <= e' < 64 ->
  exists s_add s_rem,
    AtomicEnumSet.Add (S fuel) this e s = Ok tt s_add /\
    AtomicEnumSet.Remove (S fuel) this e s = Ok tt s_rem /\
    result_value (AtomicEnumSet.Contains this e s_add) = Some true /\
    result_value (AtomicEnumSet.Contains this e s_rem) = Some false /\
    result_value (AtomicEnumSet.Contains this e' s) = Some (Z.testbit w e') /\
    (e' <> e ->
       result_value (AtomicEnumSet.Contains this e' s_add) =
         result_value (AtomicEnumSet.Contains this e' s) /\
       result_value (AtomicEnumSet.Contains this e' s_rem) =
         result_value (AtomicEnumSet.Contains this e' s)) /\
    (exists s2, AtomicEnumSet.Add (S fuel) this e s_add = Ok tt s2 /\
                mem s2 = mem s_add) /\
    (e' <> e ->
       exists aa aa' rr rr' ar ra,
         (AtomicEnumSet.Add (S fuel) this e ;; AtomicEnumSet.Add (S fuel) this e') s = Ok tt aa /\
         (AtomicEnumSet.Add (S fuel) this e' ;; AtomicEnumSet.Add (S fuel) this e) s = Ok tt aa' /\
         mem aa = mem aa' /\
         (AtomicEnumSet.Remove (S fuel) this e ;; AtomicEnumSet.Remove (S fuel) this e') s = Ok tt rr /\
         (AtomicEnumSet.Remove (S fuel) this e' ;; AtomicEnumSet.Remove (S fuel) this e) s = Ok tt rr' /\
         mem rr = mem rr' /\
         (AtomicEnumSet.Add (S fuel) this e ;; AtomicEnumSet.Remove (S fuel) this e') s = Ok tt ar /\
         (AtomicEnumSet.Remove (S fuel) this e' ;; AtomicEnumSet.Add (S fuel) this e) s = Ok tt ra /\
         mem ar = mem ra).
Proof.
  intros Hs Hm Hw He He'.
  pose proof (ATOMIC_SET_WRITE_sequential fuel this Z.lor (AtomicEnumSet.Mask e) s w Hs Hm) as Hadd.
  pose proof (ATOMIC_SET_WRITE_sequential fuel this Z.land
                (Z.lnot (AtomicEnumSet.Mask e)) s w Hs Hm) as Hrem.
  eexists. eexists.
  split; [exact Hadd |]. split; [exact Hrem |].
  split; [| split; [| split; [| split; [| split]]]].
  - erewrite Contains_sequential;
      [| reflexivity | simpl; apply lookup_insert_eq | apply in_range_Add; exact Hw | exact He].
    simpl. rewrite testbit_Add, Z.eqb_refl, orb_true_r by lia. reflexivity.
  - erewrite Contains_sequential;
      [| reflexivity | simpl; apply lookup_insert_eq | apply in_range_Remove; exact Hw | exact He].
    simpl. rewrite testbit_Remove, Z.eqb_refl, andb_false_r by lia. reflexivity.
  - rewrite (Contains_sequential this e' s w Hs Hm Hw He'). reflexivity.
  - intros Hne. rewrite (Contains_sequential this e' s w Hs Hm Hw He').
    assert (Hneq : (e =? e') = false) by (apply Z.eqb_neq; congruence).
    split.
    + erewrite Contains_sequential;
        [| reflexivity | simpl; apply lookup_insert_eq | apply in_range_Add; exact Hw | exact He'].
      simpl. rewrite testbit_Add, Hneq, orb_false_r by lia. reflexivity.
    + erewrite Contains_sequential;
        [| reflexivity | simpl; apply lookup_insert_eq | apply in_range_Remove; exact Hw | exact He'].
      simpl. rewrite testbit_Remove, Hneq, andb_true_r by lia. reflexivity.
  - eexists. split.
    + apply ATOMIC_SET_WRITE_sequential; [reflexivity | simpl; apply lookup_insert_eq].
    + simpl. rewrite insert_insert_eq.
      rewrite <- Z.lor_assoc, Z.lor_diag. reflexivity.
  - intros Hne.
    destruct (ATOMIC_SET_WRITE_twice fuel this Z.lor (AtomicEnumSet.Mask e)
                Z.lor (AtomicEnumSet.Mask e') s w Hs Hm) as (aa & Haa & Maa).
    destruct (ATOMIC_SET_WRITE_twice fuel this Z.lor (AtomicEnumSet.Mask e')
                Z.lor (AtomicEnumSet.Mask e) s w Hs Hm) as (aa' & Haa' & Maa').
    destruct (ATOMIC_SET_WRITE_twice fuel this Z.land (Z.lnot (AtomicEnumSet.Mask e))
                Z.land (Z.lnot (AtomicEnumSet.Mask e')) s w Hs Hm) as (rr & Hrr & Mrr).
    destruct (ATOMIC_SET_WRITE_twice fuel this Z.land (Z.lnot (AtomicEnumSet.Mask e'))
                Z.land (Z.lnot (AtomicEnumSet.Mask e)) s w Hs Hm) as (rr' & Hrr' & Mrr').
    destruct (ATOMIC_SET_WRITE_twice fuel this Z.lor (AtomicEnumSet.Mask e)
                Z.land (Z.lnot (AtomicEnumSet.Mask e')) s w Hs Hm) as (ar & Har & Mar).
    destruct (ATOMIC_SET_WRITE_twice fuel this Z.land (Z.lnot (AtomicEnumSet.Mask e'))
                Z.lor (AtomicEnumSet.Mask e) s w Hs Hm) as (ra & Hra & Mra).
    exists aa, aa', rr, rr', ar, ra.
    repeat split; try assumption.
    + rewrite Maa, Maa'. f_equal.
      rewrite <- !Z.lor_assoc. f_equal. apply Z.lor_comm.
    + rewrite Mrr, Mrr'. f_equal.
      rewrite <- !Z.land_assoc. f_equal. apply Z.land_comm.
    + rewrite Mar, Mra. f_equal. apply Add_Remove_words_commute; assumption.
Qed.

(** ** Default construction *)

(** A constructor followed by one read: the read finds the word the
    constructor has just placed. *)
Ltac run_after_ctor :=
  unfold bind, init, preempt, load, sequential, ret, log; simpl;
  rewrite lookup_insert_eq; simpl.

(** C9.  A default-constructed cell starts at zero: right after the default
    constructor, [AtomicNumber::Value()], [AtomicValue::Value()] and
    [NoBarrierAtomicValue::Value()] return 0 for every value type, and a
    default-constructed [AtomicEnumSet] is empty: [IsEmpty()] is true and
    [Contains(e)] is false for every [e]. *)
Theorem default_constructed_cells_start_at_zero
    (T : IntType) (this : Address) (m : gmap Z Z) (e : Z) :
  result_value ((AtomicNumber.ctor this ;; AtomicNumber.Value T this) (sequential m))
    = Some 0 /\
  result_value ((AtomicValue.ctor this ;; AtomicValue.Value T this) (sequential m))
    = Some 0 /\
  result_value ((NoBarrierAtomicValue.ctor this ;; NoBarrierAtomicValue.Value T this)
                  (sequential m))
    = Some 0 /\
  result_value ((AtomicEnumSet.ctor_default this ;; AtomicEnumSet.IsEmpty this)
                  (sequential m))
    = Some true /\
  result_value ((AtomicEnumSet.ctor_default this ;; AtomicEnumSet.Contains this e)
                  (sequential m))
    = Some false.
Proof.
  repeat split.
  - unfold AtomicNumber.ctor, AtomicNumber.Value, Acquire_Load.
    run_after_ctor. rewrite static_cast_zero. reflexivity.
  - unfold AtomicValue.ctor, AtomicValue.Value, Acquire_Load, cast_helper.to_return_type.
    run_after_ctor. rewrite static_cast_zero. reflexivity.
  - unfold NoBarrierAtomicValue.ctor, NoBarrierAtomicValue.Value, Relaxed_Load,
      cast_helper.to_return_type.
    run_after_ctor. rewrite static_cast_zero. reflexivity.
  - unfold AtomicEnumSet.ctor_default, AtomicEnumSet.ctor, AtomicEnumSet.IsEmpty,
      AtomicEnumSet.ToIntegral, Acquire_Load.
    run_after_ctor. reflexivity.
  - unfold AtomicEnumSet.ctor_default, AtomicEnumSet.ctor, AtomicEnumSet.Contains,
      AtomicEnumSet.ToIntegral, Acquire_Load.
    run_after_ctor. reflexivity.
Qed.

(** ** The dispatch table *)

Lemma VisitorId_value_range id :
  id <> kVisitorIdCount -> 0 <= VisitorId_value id < VisitorId_value kVisitorIdCount.
Proof. destruct id; intros H; [vm_compute; split; congruence .. | congruence]. Qed.

Lemma VisitorId_value_inj id id' : VisitorId_value id = VisitorId_value id' -> id = id'.
Proof. destruct id, id'; intros H; try reflexivity; discriminate H. Qed.

Lemma STATIC_ASSERT_visitor_id_fits_byte_holds : STATIC_ASSERT_visitor_id_fits_byte = true.
Proof. reflexivity. Qed.

Lemma VISITOR_ID_LIST_indices :
  map VisitorId_value VISITOR_ID_LIST =
  indices (Z.to_nat (VisitorId_value kVisitorIdCount)) 0.
Proof. reflexivity. Qed.

Lemma callbacks__in_bounds this i s :
  0 <= i < VisitorId_value kVisitorIdCount ->
  VisitorDispatchTable.callbacks_ this i s = Ok (this + i) s.
Proof.
  intros Hi. unfold VisitorDispatchTable.callbacks_.
  destruct (Z.leb_spec 0 i); [| lia].
  destruct (Z.ltb_spec i (VisitorId_value kVisitorIdCount)); [| lia].
  reflexivity.
Qed.

Lemma pointer_roundtrip p :
  in_range UInt64 p -> reinterpret_cast_to_pointer (reinterpret_cast_to_word p) = p.
Proof.
  intros Hp. unfold reinterpret_cast_to_pointer, reinterpret_cast_to_word.
  apply static_cast_roundtrip; [reflexivity | assumption].
Qed.

Lemma GetVisitorById_run this id s w :
  id <> kVisitorIdCount ->
  mem s !! (this + VisitorId_value id) = Some w ->
  VisitorDispatchTable.GetVisitorById this id s =
    Ok (reinterpret_cast_to_pointer w) (log (EvLoad NonAtomic (this + VisitorId_value id) w) s).
Proof.
  intros Hid Hm. unfold VisitorDispatchTable.GetVisitorById.
  rewrite (bind_Ok _ _ _ _ _ (callbacks__in_bounds this _ s (VisitorId_value_range id Hid))).
  unfold bind, load. rewrite Hm. reflexivity.
Qed.

Lemma Register_run this id callback s :
  id <> kVisitorIdCount ->
  VisitorDispatchTable.allocated this (mem s) ->
  VisitorDispatchTable.Register this id callback s =
    Ok tt {| mem := <[this + VisitorId_value id := reinterpret_cast_to_word callback]> (mem s);
             trace := trace s ++
               [EvStore NonAtomic (this + VisitorId_value id) (reinterpret_cast_to_word callback)];
             sched := sched s |}.
Proof.
  intros Hid Ha. pose proof (VisitorId_value_range id Hid) as Hr.
  unfold VisitorDispatchTable.Register, DCHECK.
  destruct (Z.ltb_spec (VisitorId_value id) (VisitorId_value kVisitorIdCount)); [| lia].
  unfold bind at 1, ret at 1.
  rewrite (bind_Ok _ _ _ _ _ (callbacks__in_bounds this _ s Hr)).
  unfold store. destruct (Ha _ Hr) as [w Hw]. rewrite Hw. reflexivity.
Qed.

Lemma allocated_insert this a v m :
  VisitorDispatchTable.allocated this m -> VisitorDispatchTable.allocated this (<[a := v]> m).
Proof.
  intros Ha i Hi. destruct (decide (a = this + i)) as [-> | Hne].
  - rewrite lookup_insert_eq. eauto.
  - rewrite lookup_insert_ne by assumption. apply Ha. assumption.
Qed.

(** C7.  [Register(id, e)] on an allocated table stores [e] at slot [id] by
    a plain store: [GetVisitorById(id)] then returns [e]; a later
    [Register] of the same id overrides an earlier one; and the entry read
    at any other id is the one that was there before. *)
Theorem Register_is_last_write_wins_per_id
    (this : Address) (s : State) (id id' : VisitorId) (e e1 e2 : Callback) :
  VisitorDispatchTable.allocated this (mem s) ->
  id <> kVisitorIdCount -> id' <> kVisitorIdCount ->
  in_range UInt64 e -> in_range UInt64 e2 ->
  exists s1 s2,
    VisitorDispatchTable.Register this id e s = Ok tt s1 /\
    result_value (VisitorDispatchTable.GetVisitorById this id s1) = Some e /\
    (VisitorDispatchTable.Register this id e1 ;;
     VisitorDispatchTable.Register this id e2) s = Ok tt s2 /\
    result_value (VisitorDispatchTable.GetVisitorById this id s2) = Some e2 /\
    is_Some (result_value (VisitorDispatchTable.GetVisitorById this id' s)) /\
    (id' <> id ->
       result_value (VisitorDispatchTable.GetVisitorById this id' s1) =
       result_value (VisitorDispatchTable.GetVisitorById this id' s)).
Proof.
  intros Ha Hid Hid' He He2.
  eexists. eexists.
  split; [apply Register_run; assumption |].
  split.
  { erewrite GetVisitorById_run; [| assumption | simpl; apply lookup_insert_eq].
    simpl. rewrite pointer_roundtrip by assumption. reflexivity. }
  split.
  { rewrite (bind_Ok _ _ _ _ _ (Register_run this id e1 s Hid Ha)).
    apply Register_run; [assumption |]. simpl. apply allocated_insert. assumption. }
  split.
  { erewrite GetVisitorById_run; [| assumption | simpl; apply lookup_insert_eq].
    simpl. rewrite pointer_roundtrip by assumption. reflexivity. }
  destruct (Ha _ (VisitorId_value_range id' Hid')) as [w Hw].
  split.
  { rewrite (GetVisitorById_run this id' s w Hid' Hw). simpl. eauto. }
  intros Hne.
  rewrite (GetVisitorById_run this id' s w Hid' Hw).
  erewrite GetVisitorById_run; [reflexivity | assumption |].
  simpl. rewrite lookup_insert_ne; [assumption |].
  intros Heq. apply Hne. symmetry. apply VisitorId_value_inj. lia.
Qed.

Lemma flat_map_map {A B C} (f : B -> list C) (g : A -> B) (l : list A) :
  flat_map f (map g l) = flat_map (fun x => f (g x)) l.
Proof. induction l as [| x l IH]; simpl; [reflexivity | rewrite IH; reflexivity]. Qed.

(** One iteration of the loop of [CopyFrom]: a plain read of the source
    slot and a relaxed atomic store of that word to the destination slot. *)
Lemma CopyFrom_body_run this other i s w :
  sched s = [] ->
  0 <= i < VisitorId_value kVisitorIdCount ->
  mem s !! (other + i) = Some w ->
  is_Some (mem s !! (this + i)) ->
  VisitorDispatchTable.CopyFrom_body this other i s =
    Ok tt {| mem := <[this + i := w]> (mem s);
             trace := trace s ++ [EvLoad NonAtomic (other + i) w; EvStore Relaxed (this + i) w];
             sched := [] |}.
Proof.
  intros Hs Hi Hsrc [old Hdst]. unfold VisitorDispatchTable.CopyFrom_body.
  rewrite (bind_Ok _ _ _ _ _ (callbacks__in_bounds other i s Hi)).
  erewrite bind_Ok; [| unfold load; rewrite Hsrc; reflexivity].
  erewrite bind_Ok; [| apply callbacks__in_bounds; exact Hi].
  erewrite Relaxed_Store_sequential; [| exact Hs | exact Hdst].
  unfold log. simpl. rewrite <- app_assoc. reflexivity.
Qed.

(** The loop invariant of [CopyFrom]: after the iterations [lo .. lo+n-1]
    exactly the destination slots [lo .. lo+n-1] hold the source words, every
    other word of memory is untouched, and the accesses made are one plain
    load and one relaxed store per slot, in index order. *)
Lemma CopyFrom_loop_run this other src :
  VisitorDispatchTable.same_or_apart this other ->
  forall n lo s,
    sched s = [] ->
    0 <= lo -> lo + Z.of_nat n <= VisitorId_value kVisitorIdCount ->
    (forall i, lo <= i < lo + Z.of_nat n -> mem s !! (other + i) = Some (src i)) ->
    (forall i, lo <= i < lo + Z.of_nat n -> is_Some (mem s !! (this + i))) ->
    exists s',
      for_range n lo (VisitorDispatchTable.CopyFrom_body this other) s = Ok tt s' /\
      sched s' = [] /\
      trace s' = trace s ++
        flat_map (VisitorDispatchTable.CopyFrom_events this other src) (indices n lo) /\
      (forall a, mem s' !! a =
                 if (this + lo <=? a) && (a <? this + lo + Z.of_nat n)
                 then Some (src (a - this)) else mem s !! a).
Proof.
  intros Hap. induction n as [| n IH]; intros lo s Hs Hlo Hhi Hsrc Hdst.
  - exists s. simpl. rewrite app_nil_r. repeat split; try assumption.
    intros a. destruct (Z.leb_spec (this + lo) a), (Z.ltb_spec a (this + lo + Z.of_nat 0));
      simpl; try reflexivity; lia.
  - cbn [for_range indices flat_map].
    assert (Hin : 0 <= lo < VisitorId_value kVisitorIdCount) by lia.
    pose proof (CopyFrom_body_run this other lo s (src lo) Hs Hin
                  (Hsrc lo ltac:(lia)) (Hdst lo ltac:(lia))) as Hbody.
    rewrite (bind_Ok _ _ _ _ _ Hbody).
    destruct (IH (lo + 1)
                {| mem := <[this + lo := src lo]> (mem s);
                   trace := trace s ++ [EvLoad NonAtomic (other + lo) (src lo);
                                        EvStore Relaxed (this + lo) (src lo)];
                   sched := [] |})
      as (s' & Hrun & Hsched & Htrace & Hmem).
    + reflexivity.
    + lia.
    + lia.
    + intros i Hi. simpl. rewrite lookup_insert_ne; [apply Hsrc; lia |].
      unfold VisitorDispatchTable.same_or_apart in Hap. lia.
    + intros i Hi. simpl. rewrite lookup_insert_ne by lia. apply Hdst. lia.
    + exists s'. split; [exact Hrun |]. split; [exact Hsched |]. split.
      * rewrite Htrace. simpl. rewrite <- app_assoc. reflexivity.
      * intros a. rewrite Hmem. simpl.
        destruct (Z.leb_spec (this + (lo + 1)) a),
          (Z.ltb_spec a (this + (lo + 1) + Z.of_nat n)),
          (Z.leb_spec (this + lo) a), (Z.ltb_spec a (this + lo + Z.of_nat (S n)));
          simpl; try reflexivity; try lia;
          (destruct (decide (this + lo = a)) as [<- | Hne];
           [rewrite lookup_insert_eq | rewrite lookup_insert_ne by lia]);
          try reflexivity; try lia; f_equal; f_equal; lia.
Qed.

(** C1.  On allocated tables that are the same object or do not overlap,
    [dst.CopyFrom(src)] returns, and afterwards [GetVisitorById(id)] on the
    destination returns, for every id below [kVisitorIdCount], what
    [GetVisitorById(id)] returned on the source: the entry registered there.
    The copy is made slot by slot: its accesses are, for each id in order, a
    plain read of the source slot and one relaxed atomic store of that whole
    word to the destination slot, and after any number [k] of iterations every
    destination slot holds either its source word (slots below [k]) or the
    word it held before (the others). *)
Theorem CopyFrom_copies_every_slot_by_atomic_stores
    (this other : Address) (s : State) (src : Z -> Z) :
  sched s = [] ->
  VisitorDispatchTable.allocated this (mem s) ->
  (forall i, 0 <= i < VisitorId_value kVisitorIdCount ->
             mem s !! (other + i) = Some (src i)) ->
  VisitorDispatchTable.same_or_apart this other ->
  exists s',
    VisitorDispatchTable.CopyFrom this other s = Ok tt s' /\
    (forall id, id <> kVisitorIdCount ->
       result_value (VisitorDispatchTable.GetVisitorById other id s) =
         Some (reinterpret_cast_to_pointer (src (VisitorId_value id))) /\
       result_value (VisitorDispatchTable.GetVisitorById this id s') =
         result_value (VisitorDispatchTable.GetVisitorById other id s)) /\
    (forall id e, id <> kVisitorIdCount -> in_range UInt64 e ->
       src (VisitorId_value id) = reinterpret_cast_to_word e ->
       result_value (VisitorDispatchTable.GetVisitorById this id s') = Some e) /\
    trace s' = trace s ++
      flat_map (fun id => VisitorDispatchTable.CopyFrom_events this other src
                            (VisitorId_value id)) VISITOR_ID_LIST /\
    (forall k, 0 <= k <= VisitorId_value kVisitorIdCount ->
       exists sk,
         for_ 0 k (VisitorDispatchTable.CopyFrom_body this other) s = Ok tt sk /\
         forall i, 0 <= i < VisitorId_value kVisitorIdCount ->
           mem sk !! (this + i) = if i <? k then Some (src i) else mem s !! (this + i)).
Proof.
  intros Hs Hdst Hsrc Hap.
  assert (Hprefix : forall k, 0 <= k <= VisitorId_value kVisitorIdCount ->
            exists sk,
              for_ 0 k (VisitorDispatchTable.CopyFrom_body this other) s = Ok tt sk /\
              trace sk = trace s ++
                flat_map (VisitorDispatchTable.CopyFrom_events this other src)
                         (indices (Z.to_nat k) 0) /\
              forall i, 0 <= i < VisitorId_value kVisitorIdCount ->
                mem sk !! (this + i) = if i <? k then Some (src i) else mem s !! (this + i)).
  { intros k Hk.
    destruct (CopyFrom_loop_run this other src Hap (Z.to_nat k) 0 s Hs)
      as (sk & Hrun & _ & Htrace & Hmem).
    - lia.
    - lia.
    - intros i Hi. apply Hsrc. lia.
    - intros i Hi. apply Hdst. lia.
    - exists sk. unfold for_. rewrite Z.sub_0_r. split; [exact Hrun |].
      split; [exact Htrace |].
      intros i Hi. rewrite Hmem. rewrite Z2Nat.id by lia.
      destruct (Z.leb_spec (this + 0) (this + i)), (Z.ltb_spec (this + i) (this + 0 + k)),
        (Z.ltb_spec i k); simpl; try lia; try reflexivity.
      f_equal. f_equal. lia. }
  destruct (Hprefix (VisitorId_value kVisitorIdCount)) as (s' & Hrun & Htrace & Hmem);
    [vm_compute; split; discriminate |].
  exists s'. split; [exact Hrun |].
  assert (Hget : forall id, id <> kVisitorIdCount ->
            result_value (VisitorDispatchTable.GetVisitorById this id s') =
              Some (reinterpret_cast_to_pointer (src (VisitorId_value id)))).
  { intros id Hid. pose proof (VisitorId_value_range id Hid) as Hr.
    erewrite GetVisitorById_run; [reflexivity | exact Hid |].
    rewrite (Hmem _ Hr).
    destruct (Z.ltb_spec (VisitorId_value id) (VisitorId_value kVisitorIdCount));
      [reflexivity | lia]. }
  split; [| split; [| split]].
  - intros id Hid. pose proof (VisitorId_value_range id Hid) as Hr.
    rewrite (GetVisitorById_run other id s _ Hid (Hsrc _ Hr)).
    split; [reflexivity |]. rewrite (Hget id Hid). reflexivity.
  - intros id e Hid He Heq. rewrite (Hget id Hid), Heq.
    rewrite pointer_roundtrip by assumption. reflexivity.
  - rewrite Htrace, <- VISITOR_ID_LIST_indices, flat_map_map. reflexivity.
  - intros k Hk. destruct (Hprefix k Hk) as (sk & Hk1 & _ & Hk2).
    exists sk. split; assumption.
Qed.

(** ** Unhandled slots *)

(** C2, as stated, fails: resolving a slot that holds [UnreachableVisitor]
    returns that entry; it does not fault. *)
Lemma GetVisitorById_resolves_unhandled_slot_without_fault :
  ~ (forall (text : gmap Z VisitFunction) (table_ : Address) (s : State) (id : VisitorId),
       id <> kVisitorIdCount ->
       StaticNewSpaceVisitor.unhandled text table_ s id ->
       VisitorDispatchTable.GetVisitorById table_ id s = Fatal).
Proof.
  intros H.
  specialize (H {[4096 := StaticNewSpaceVisitor.UnreachableVisitor]} 1000
                (sequential {[1004 := 4096]}) kVisitCode).
  assert (Hres : VisitorDispatchTable.GetVisitorById 1000 kVisitCode
                   (sequential {[1004 := 4096]}) =
                 Ok 4096 (log (EvLoad NonAtomic 1004 4096) (sequential {[1004 := 4096]})))
    by (apply (GetVisitorById_run 1000 kVisitCode _ 4096); [discriminate | reflexivity]).
  rewrite Hres in H.
  assert (Hfalse : Ok 4096 (log (EvLoad NonAtomic 1004 4096) (sequential {[1004 := 4096]}))
                   = @Fatal Z); [| discriminate Hfalse].
  apply H; [discriminate |].
  exists 4096. split; [reflexivity |]. right. reflexivity.
Defined.

(** A never-written slot of a statically initialised table resolves to the
    null callback. *)
Example GetVisitorById_of_never_written_slot :
  result_value ((VisitorDispatchTable.static_init 1000 ;;
                 VisitorDispatchTable.GetVisitorById 1000 kVisitMap) (sequential ∅)) = Some 0.
Proof. vm_compute. reflexivity. Qed.

(** C2, amended.  [GetVisitorById] and [GetVisitor] make no check: for an id
    below [kVisitorIdCount] they return the entry the slot holds, whatever
    it is.  When that entry is [UnreachableVisitor], it is the call of the
    resolved entry that is fatal, for every map and object: [IterateBody]
    never returns a size for such a slot. *)
Theorem unhandled_slot_is_fatal_when_invoked
    (text : gmap Z VisitFunction) (visitor_id : MapPtr -> VisitorId) (table_ : Address)
    (s : State) (map : MapPtr) (obj : HeapObjectPtr) (w : Z) :
  visitor_id map <> kVisitorIdCount ->
  mem s !! (table_ + VisitorId_value (visitor_id map)) = Some w ->
  let s' := log (EvLoad NonAtomic (table_ + VisitorId_value (visitor_id map)) w) s in
  VisitorDispatchTable.GetVisitorById table_ (visitor_id map) s =
    Ok (reinterpret_cast_to_pointer w) s' /\
  VisitorDispatchTable.GetVisitor visitor_id table_ map s =
    Ok (reinterpret_cast_to_pointer w) s' /\
  (text !! reinterpret_cast_to_pointer w = Some StaticNewSpaceVisitor.UnreachableVisitor ->
     call text (reinterpret_cast_to_pointer w) map obj s' = Fatal /\
     StaticNewSpaceVisitor.IterateBody text visitor_id table_ map obj s = Fatal).
Proof.
  intros Hid Hm s'.
  pose proof (GetVisitorById_run table_ (visitor_id map) s w Hid Hm) as Hget.
  split; [exact Hget |]. split; [exact Hget |].
  intros Htext. split.
  - unfold call. rewrite Htext. reflexivity.
  - unfold StaticNewSpaceVisitor.IterateBody, VisitorDispatchTable.GetVisitor.
    rewrite (bind_Ok _ _ _ _ _ Hget). unfold call. rewrite Htext. reflexivity.
Qed.

(** ** Visitor-identity assignment *)

(** C3.  For a plain-data shape without unboxed fields and with a size of 2
    to [N] words the id is [base_id + (size_in_words - 2)]; on those sizes
    the assignment is one-to-one and onto [base_id .. base_id + N - 2].  A
    size above [N], or the unboxed-fields flag, gives the generic id, which
    is not a specialised id as soon as the generic id itself lies outside
    the specialised range.  Size 4 with base 5 (sizes 2 to 6, generic 40)
    gives 7. *)
Theorem GetVisitorIdForSize_is_linear_in_size (base_id generic_id N : Z) :
  let id := StaticVisitorBase.GetVisitorIdForSize base_id generic_id N in
  (forall size, 2 <= size <= N -> id size false = base_id + (size - 2)) /\
  (forall size, 2 <= size <= N -> StaticVisitorBase.specialized base_id N (id size false)) /\
  (forall size size', 2 <= size <= N -> 2 <= size' <= N ->
     id size false = id size' false -> size = size') /\
  (forall i, StaticVisitorBase.specialized base_id N i ->
     exists size, 2 <= size <= N /\ id size false = i) /\
  (forall size unboxed, N < size \/ unboxed = true -> id size unboxed = generic_id) /\
  (~ StaticVisitorBase.specialized base_id N generic_id ->
   forall size unboxed, N < size \/ unboxed = true ->
     ~ StaticVisitorBase.specialized base_id N (id size unboxed)) /\
  StaticVisitorBase.GetVisitorIdForSize 5 40 6 4 false = 7.
Proof.
  intros id.
  assert (Hin : forall size, 2 <= size <= N -> id size false = base_id + (size - 2)).
  { intros size Hsize. unfold id, StaticVisitorBase.GetVisitorIdForSize.
    destruct (Z.leb_spec 2 size), (Z.leb_spec size N); simpl; lia. }
  assert (Hout : forall size unboxed, N < size \/ unboxed = true ->
                   id size unboxed = generic_id).
  { intros size unboxed Hcase. unfold id, StaticVisitorBase.GetVisitorIdForSize.
    destruct unboxed; [reflexivity |].
    destruct Hcase as [Hbig | Hflag]; [| discriminate Hflag].
    destruct (Z.leb_spec 2 size), (Z.leb_spec size N); simpl; lia. }
  unfold StaticVisitorBase.specialized.
  repeat split.
  - exact Hin.
  - rewrite Hin by assumption. lia.
  - rewrite Hin by assumption. lia.
  - intros size size' Hs Hs'. rewrite !Hin by assumption. lia.
  - intros i Hi. exists (i - base_id + 2). split; [lia |]. rewrite Hin by lia. lia.
  - exact Hout.
  - intros Hgen size unboxed Hcase. rewrite Hout by assumption. exact Hgen.
Qed.

(** ** Body traversal strategies *)

(** C4.  For every body descriptor, map and object, the variable-size
    strategy asks the descriptor for [SizeOf(map, object)] first, then
    calls [IterateBody(object, object_size)] once with exactly that size on
    the visitor state, and returns that size converted to the return type:
    the size itself for [int], nothing for [void]. *)
Theorem FlexibleBodyVisitor_Visit_sizes_then_iterates
    {V R : Type} {D : FlexibleBodyDescriptor V} {RT : ReturnType R}
    (map : MapPtr) (object : HeapObjectPtr) (st : VisitState V) :
  let object_size := SizeOf map object in
  let st' := {| visitor :=
                  IterateBody_sized object object_size (visitor st);
                calls :=
                  calls st ++
                  [Call_SizeOf map object;
                   Call_IterateBody_sized object object_size] |} in
  FlexibleBodyVisitor_Visit (R := R) map object st =
    (static_cast_int object_size, st') /\
  FlexibleBodyVisitor_Visit (R := Z) map object st = (object_size, st') /\
  FlexibleBodyVisitor_Visit (R := unit) map object st = (tt, st') /\
  count_IterateBody (calls st') =
    S (count_IterateBody (calls st)).
Proof.
  intros object_size st'.
  assert (Hrun : forall R' (RT' : ReturnType R'),
            FlexibleBodyVisitor_Visit (R := R') map object st =
              (static_cast_int object_size, st')).
  { intros R' RT'. unfold FlexibleBodyVisitor_Visit, invoke, st'.
    simpl. rewrite <- app_assoc. reflexivity. }
  split; [apply Hrun |]. split; [apply Hrun |]. split; [apply Hrun |].
  unfold st', count_IterateBody. simpl.
  rewrite List.filter_app, length_app. simpl. lia.
Qed.

(** C5.  For every fixed-shape body descriptor, map and object, the
    fixed-size strategy calls [IterateBody(object)] exactly once on the
    visitor state and returns the descriptor's constant [kSize] converted
    to the return type; the returned value is the same for every map,
    object and visitor state. *)
Theorem FixedBodyVisitor_Visit_returns_kSize
    {V R : Type} {D : FixedBodyDescriptor V} {RT : ReturnType R}
    (map : MapPtr) (object : HeapObjectPtr) (st : VisitState V) :
  let st' := {| visitor := IterateBody object (visitor st);
                calls :=
                  calls st ++ [Call_IterateBody object] |} in
  FixedBodyVisitor_Visit (R := R) map object st =
    (static_cast_int kSize, st') /\
  FixedBodyVisitor_Visit (R := Z) map object st = (kSize, st') /\
  count_IterateBody (calls st') =
    S (count_IterateBody (calls st)) /\
  (forall (map' : MapPtr) (object' : HeapObjectPtr) (st0 : VisitState V),
     fst (FixedBodyVisitor_Visit (R := Z) map' object' st0) =
     fst (FixedBodyVisitor_Visit (R := Z) map object st)).
Proof.
  intros st'. repeat split.
  unfold st', count_IterateBody. simpl.
  rewrite List.filter_app, length_app. simpl. lia.
Qed.

(** ** Concrete runs *)

Lemma In_indices n : forall lo i, lo <= i < lo + Z.of_nat n -> In i (indices n lo).
Proof.
  induction n as [| n IH]; intros lo i Hi; [lia |].
  simpl. destruct (Z.eq_dec lo i) as [-> | Hne]; [left; reflexivity |].
  right. apply IH. lia.
Qed.

(** A property of every index of a range can be checked by running through
    the range. *)
Lemma check_range (P : Z -> Prop) {dec : forall i, Decision (P i)} (n : nat) (lo : Z) :
  forallb (fun i => bool_decide (P i)) (indices n lo) = true ->
  forall i, lo <= i < lo + Z.of_nat n -> P i.
Proof.
  intros Hall i Hi. rewrite forallb_forall in Hall.
  apply bool_decide_eq_true with (H := dec i). apply Hall. apply In_indices. assumption.
Qed.

Ltac in_range_by_computation := apply in_rangeb_spec; reflexivity.

Ltac every_slot_by_computation :=
  let i := fresh "i" in
  let Hi := fresh "Hi" in
  intros i Hi; pattern i;
  apply (check_range _ 35 0); [vm_compute; reflexivity | exact Hi].

(** The scenario of C6: a cell holding [0b0001], [SetBits(0b0100, 0b1100)],
    result [0b0101]. *)
Lemma AtomicValue_SetBits_scenario :
  AtomicValue.SetBits UInt32 1 100 4 12 (sequential {[100 := 1]}) =
    Ok tt {| mem := {[100 := 5]};
             trace := [EvLoad Acquire 100 1; EvCompareAndSwap Release 100 1 5 1];
             sched := [] |} /\
  result_value (AtomicValue.Value UInt32 100
                  {| mem := {[100 := 5]};
                     trace := [EvLoad Acquire 100 1; EvCompareAndSwap Release 100 1 5 1];
                     sched := [] |}) = Some 5.
Proof.
  destruct (AtomicValue_SetBits_replaces_masked_bits UInt32 0 100
              (sequential {[100 := 1]}) 1 4 12) as (Hrun & Hval & _).
  - reflexivity.
  - in_range_by_computation.
  - in_range_by_computation.
  - in_range_by_computation.
  - reflexivity.
  - reflexivity.
  - split.
    + exact Hrun.
    + exact (f_equal result_value Hval).
Defined.

(** C8 on a [uint32_t] location holding 9: bits [0b0100] under the mask
    [0b1100] are not yet set, so 5 is installed and the call returns true. *)
Lemma AsAtomic32_SetBits_scenario :
  AsAtomic32.SetBits UInt32 1 100 4 12 (sequential {[100 := 9]}) =
    Ok true {| mem := {[100 := 5]};
               trace := [EvLoad Relaxed 100 9; EvCompareAndSwap Release 100 9 5 9];
               sched := [] |}.
Proof.
  destruct (AsAtomic32_SetBits_skips_or_installs UInt32 0 100
              (sequential {[100 := 9]}) 9 4 12) as (_ & Hinstall).
  - reflexivity.
  - discriminate.
  - in_range_by_computation.
  - in_range_by_computation.
  - in_range_by_computation.
  - reflexivity.
  - reflexivity.
  - destruct Hinstall as (Hrun & _); [discriminate |]. exact Hrun.
Defined.

(** C10 on a set holding the elements 0 and 2: after adding element 63 the
    set contains it, and still contains 2. *)
Lemma AtomicEnumSet_scenario :
  result_value ((AtomicEnumSet.Add 1 7 63 ;; AtomicEnumSet.Contains 7 63)
                  (sequential {[7 := 5]})) = Some true /\
  result_value ((AtomicEnumSet.Add 1 7 63 ;; AtomicEnumSet.Contains 7 2)
                  (sequential {[7 := 5]})) = Some true.
Proof.
  destruct (AtomicEnumSet_sequential_set_semantics 0 7 (sequential {[7 := 5]}) 5 63 2)
    as (s_add & s_rem & Hadd & _ & Hin & _ & Hbefore & Hother & _).
  - reflexivity.
  - reflexivity.
  - in_range_by_computation.
  - lia.
  - lia.
  - split.
    + rewrite (bind_Ok _ _ _ _ _ Hadd). exact Hin.
    + rewrite (bind_Ok _ _ _ _ _ Hadd).
      destruct Hother as [Hkeep _]; [lia |].
      rewrite Hkeep, Hbefore. reflexivity.
Defined.

(** C7 on a zero-initialised table at address 1000: registering the entry
    4096 for [kVisitCode] makes it the entry resolved for that id. *)
Lemma Register_scenario :
  result_value
    ((VisitorDispatchTable.Register 1000 kVisitCode 4096 ;;
      VisitorDispatchTable.GetVisitorById 1000 kVisitCode)
       (sequential (list_to_map (map (fun i => (1000 + i, 0)) (indices 35 0))))) =
  Some 4096.
Proof.
  destruct (Register_is_last_write_wins_per_id 1000
              (sequential (list_to_map (map (fun i => (1000 + i, 0)) (indices 35 0))))
              kVisitCode kVisitMap 4096 8192 4096)
    as (s1 & s2 & Hreg & Hget & _).
  - unfold VisitorDispatchTable.allocated. every_slot_by_computation.
  - discriminate.
  - discriminate.
  - in_range_by_computation.
  - in_range_by_computation.
  - rewrite (bind_Ok _ _ _ _ _ Hreg). exact Hget.
Defined.

(** C1 with a destination table of zeros at 1000 and a source table at 2000
    whose slot [i] holds [4096 + i]: after the copy the destination resolves
    [kVisitCode] (slot 4) to 4100. *)
Lemma CopyFrom_scenario :
  result_value
    ((VisitorDispatchTable.CopyFrom 1000 2000 ;;
      VisitorDispatchTable.GetVisitorById 1000 kVisitCode)
       (sequential (list_to_map (map (fun i => (1000 + i, 0)) (indices 35 0) ++
                                 map (fun i => (2000 + i, 4096 + i)) (indices 35 0))))) =
  Some 4100.
Proof.
  destruct (CopyFrom_copies_every_slot_by_atomic_stores 1000 2000
              (sequential (list_to_map (map (fun i => (1000 + i, 0)) (indices 35 0) ++
                                        map (fun i => (2000 + i, 4096 + i)) (indices 35 0))))
              (fun i => 4096 + i))
    as (s' & Hrun & Hget & _).
  - reflexivity.
  - unfold VisitorDispatchTable.allocated. every_slot_by_computation.
  - every_slot_by_computation.
  - right. left. vm_compute. discriminate.
  - rewrite (bind_Ok _ _ _ _ _ Hrun).
    destruct (Hget kVisitCode) as [Hsrc Hdst]; [discriminate |].
    rewrite Hdst, Hsrc. reflexivity.
Defined.

(** C2 on a table whose slot for [kVisitCode] holds the address 4096 of
    [UnreachableVisitor]: visiting an object whose map carries that id is
    fatal. *)
Lemma IterateBody_unreachable_scenario :
  StaticNewSpaceVisitor.IterateBody
    {[4096 := StaticNewSpaceVisitor.UnreachableVisitor]}
    (fun _ => kVisitCode) 1000 1 2 (sequential {[1004 := 4096]}) = Fatal.
Proof.
  destruct (unhandled_slot_is_fatal_when_invoked
              {[4096 := StaticNewSpaceVisitor.UnreachableVisitor]}
              (fun _ => kVisitCode) 1000 (sequential {[1004 := 4096]}) 1 2 4096)
    as (_ & _ & Hfatal).
  - discriminate.
  - reflexivity.
  - destruct Hfatal as [_ Hiter]; [reflexivity |]. exact Hiter.
Defined.

(** The retry of [SetBits] is live: when another thread stores 9 between
    the load and the compare-and-swap, the first attempt fails and the
    second installs [(9 & ~mask) | bits]; a budget of one attempt is then
    not enough. *)
Example AtomicValue_SetBits_retries_after_interference :
  AtomicValue.SetBits UInt32 2 100 4 12
    {| mem := {[100 := 1]}; trace := []; sched := [Quiet; OtherStore 100 9] |} =
    Ok tt {| mem := {[100 := 5]};
             trace := [EvLoad Acquire 100 1; EvCompareAndSwap Release 100 1 5 9;
                       EvLoad Acquire 100 9; EvCompareAndSwap Release 100 9 5 9];
             sched := [] |} /\
  AtomicValue.SetBits UInt32 1 100 4 12
    {| mem := {[100 := 1]}; trace := []; sched := [Quiet; OtherStore 100 9] |} = OutOfFuel.
Proof. split; vm_compute; reflexivity. Qed.

(** Why C8 asks for the whole [Atomic32] word to be the image of the value:
    read as a [uint8_t], the word 256 is the value 0; the compare-and-swap
    then expects the word 0, finds 256 and writes nothing, yet the word it
    returns reads as 0 again and the loop ends with [true]. *)
Example AsAtomic32_SetBits_on_a_narrower_type :
  AsAtomic32.SetBits UInt8 1 100 4 12 (sequential {[100 := 256]}) =
    Ok true {| mem := {[100 := 256]};
               trace := [EvLoad Relaxed 100 256; EvCompareAndSwap Release 100 0 4 256];
               sched := [] |}.
Proof. vm_compute. reflexivity. Qed.

(** * Further properties of the atomic cells *)

(** ** More on casts *)

(** Converting through a type at least as wide changes nothing. *)
Lemma static_cast_through_wider ty wide z :
  width ty <= width wide -> static_cast ty (static_cast wide z) = static_cast ty z.
Proof.
  intros Hw. apply Z.bits_inj'. intros i Hi.
  pose proof (width_pos ty).
  rewrite !(testbit_static_cast ty) by assumption.
  destruct (Z.ltb_spec i (width ty)).
  - rewrite testbit_static_cast by assumption.
    destruct (Z.ltb_spec i (width wide)); [reflexivity | lia].
  - rewrite testbit_static_cast by lia.
    destruct (Z.ltb_spec (width ty - 1) (width wide)); [reflexivity | lia].
Qed.

Lemma static_cast_idem ty z : static_cast ty (static_cast ty z) = static_cast ty z.
Proof. apply static_cast_through_wider. lia. Qed.

(** A cast only depends on the residue modulo [2^width]. *)
Lemma static_cast_residue ty z : static_cast ty z mod 2 ^ width ty = z mod 2 ^ width ty.
Proof.
  unfold static_cast, wrap_signed.
  pose proof (width_pos ty) as Hw.
  assert (2 ^ width ty <> 0) by (apply Z.pow_nonzero; lia).
  destruct (is_signed ty).
  - rewrite Zminus_mod_idemp_l.
    replace (z + 2 ^ (width ty - 1) - 2 ^ (width ty - 1)) with z by lia.
    reflexivity.
  - apply Z.mod_mod. assumption.
Qed.

Lemma static_cast_of_residue ty z : static_cast ty (z mod 2 ^ width ty) = static_cast ty z.
Proof.
  unfold static_cast, wrap_signed.
  assert (2 ^ width ty <> 0) by (pose proof (width_pos ty); apply Z.pow_nonzero; lia).
  destruct (is_signed ty).
  - rewrite Z.add_mod_idemp_l by assumption. reflexivity.
  - apply Z.mod_mod. assumption.
Qed.

Lemma static_cast_congruent ty a b :
  a mod 2 ^ width ty = b mod 2 ^ width ty -> static_cast ty a = static_cast ty b.
Proof.
  intros H. rewrite <- (static_cast_of_residue ty a), <- (static_cast_of_residue ty b), H.
  reflexivity.
Qed.

(** Addition commutes with casts of its operands. *)
Lemma static_cast_add ty a b :
  static_cast ty (static_cast ty a + static_cast ty b) = static_cast ty (a + b).
Proof.
  apply static_cast_congruent.
  assert (2 ^ width ty <> 0) by (pose proof (width_pos ty); apply Z.pow_nonzero; lia).
  rewrite Z.add_mod by assumption. rewrite !static_cast_residue.
  rewrite <- Z.add_mod by assumption. reflexivity.
Qed.

Lemma static_cast_add_l ty a b :
  static_cast ty (static_cast ty a + b) = static_cast ty (a + b).
Proof.
  rewrite <- (static_cast_add ty (static_cast ty a) b), static_cast_idem.
  apply static_cast_add.
Qed.

Lemma static_cast_add_r ty a b :
  static_cast ty (a + static_cast ty b) = static_cast ty (a + b).
Proof. rewrite Z.add_comm, static_cast_add_l, Z.add_comm. reflexivity. Qed.

Lemma static_cast_opp ty a :
  static_cast ty (- static_cast ty a) = static_cast ty (- a).
Proof.
  apply static_cast_congruent.
  assert (Hn : 2 ^ width ty <> 0) by (pose proof (width_pos ty); apply Z.pow_nonzero; lia).
  pose proof (static_cast_residue ty a) as Hr.
  rewrite <- (Z.sub_0_l (static_cast ty a)), <- (Z.sub_0_l a).
  rewrite Zminus_mod, Hr, <- Zminus_mod. reflexivity.
Qed.

Lemma static_cast_sub_r ty a b :
  static_cast ty (a - static_cast ty b) = static_cast ty (a - b).
Proof.
  apply static_cast_congruent.
  assert (Hn : 2 ^ width ty <> 0) by (pose proof (width_pos ty); apply Z.pow_nonzero; lia).
  rewrite Zminus_mod, static_cast_residue, <- Zminus_mod. reflexivity.
Qed.

(** ** [AtomicNumber] *)

Lemma Barrier_AtomicIncrement_sequential s ptr w increment :
  sched s = [] -> mem s !! ptr = Some w ->
  Barrier_AtomicIncrement ptr increment s =
    Ok (static_cast kAtomicWord (w + increment))
       {| mem := <[ptr := static_cast kAtomicWord (w + increment)]> (mem s);
          trace := trace s ++
            [EvIncrement Barrier ptr increment (static_cast kAtomicWord (w + increment))];
          sched := [] |}.
Proof.
  intros Hs Hm. unfold Barrier_AtomicIncrement.
  rewrite (bind_Ok _ _ _ _ _ (preempt_sequential s Hs)).
  unfold fetch_add. rewrite Hm, Hs. reflexivity.
Qed.

Lemma Release_Store_sequential s ptr value old :
  sched s = [] -> mem s !! ptr = Some old ->
  Release_Store ptr value s =
    Ok tt {| mem := <[ptr := value]> (mem s);
             trace := trace s ++ [EvStore Release ptr value];
             sched := [] |}.
Proof.
  intros Hs Hm. unfold Release_Store.
  rewrite (bind_Ok _ _ _ _ _ (preempt_sequential s Hs)).
  unfold store. rewrite Hm, Hs. reflexivity.
Qed.

Lemma AtomicNumber_Value_sequential T s this w :
  sched s = [] -> mem s !! this = Some w ->
  AtomicNumber.Value T this s = Ok (static_cast T w) (log (EvLoad Acquire this w) s).
Proof.
  intros Hs Hm. unfold AtomicNumber.Value, AtomicNumber.value_.
  rewrite (bind_Ok _ _ _ _ _ (Acquire_Load_sequential s this w Hs Hm)). reflexivity.
Qed.

Lemma AtomicNumber_Increment_sequential T s this w increment :
  sched s = [] -> mem s !! this = Some w ->
  AtomicNumber.Increment T this increment s =
    Ok (static_cast T (static_cast T w + increment))
       {| mem := <[this := static_cast kAtomicWord (w + increment)]> (mem s);
          trace := trace s ++
            [EvIncrement Barrier this (static_cast kAtomicWord increment)
               (static_cast kAtomicWord (w + increment))];
          sched := [] |}.
Proof.
  intros Hs Hm. unfold AtomicNumber.Increment, AtomicNumber.value_.
  rewrite (bind_Ok _ _ _ _ _ (Barrier_AtomicIncrement_sequential s this w _ Hs Hm)).
  unfold ret. rewrite static_cast_add_r.
  rewrite static_cast_through_wider by apply width_le_AtomicWord.
  rewrite static_cast_add_l. reflexivity.
Qed.

Lemma AtomicNumber_Decrement_sequential T s this w decrement :
  sched s = [] -> mem s !! this = Some w ->
  AtomicNumber.Decrement T this decrement s =
    Ok (static_cast T (static_cast T w - decrement))
       {| mem := <[this := static_cast kAtomicWord (w - decrement)]> (mem s);
          trace := trace s ++
            [EvIncrement Barrier this
               (static_cast kAtomicWord (- static_cast kAtomicWord decrement))
               (static_cast kAtomicWord (w - decrement))];
          sched := [] |}.
Proof.
  intros Hs Hm. unfold AtomicNumber.Decrement, AtomicNumber.value_.
  rewrite (bind_Ok _ _ _ _ _ (Barrier_AtomicIncrement_sequential s this w _ Hs Hm)).
  assert (E1 : static_cast kAtomicWord
                 (w + static_cast kAtomicWord (- static_cast kAtomicWord decrement)) =
               static_cast kAtomicWord (w - decrement)).
  { rewrite static_cast_add_r.
    replace (w + - static_cast kAtomicWord decrement)
      with (w - static_cast kAtomicWord decrement) by lia.
    apply static_cast_sub_r. }
  assert (E2 : static_cast T (static_cast kAtomicWord (w - decrement)) =
               static_cast T (static_cast T w - decrement)).
  { rewrite static_cast_through_wider by apply width_le_AtomicWord.
    replace (static_cast T w - decrement) with (static_cast T w + - decrement) by lia.
    rewrite static_cast_add_l.
    replace (w + - decrement) with (w - decrement) by lia. reflexivity. }
  unfold ret. rewrite E1, E2. reflexivity.
Qed.

(** X1.  Sequentially, on a counter that reads as [v], [Increment(n)]
    returns [v + n] and [Decrement(n)] returns [v - n], both wrapped around
    in the value type [T], and [Value()] right after returns the same
    number: the calls return the value after the update. *)
Theorem AtomicNumber_Increment_Decrement_return_the_new_value
    (T : IntType) (this : Address) (s : State) (v n : Z) :
  sched s = [] ->
  result_value (AtomicNumber.Value T this s) = Some v ->
  exists s_inc s_dec,
    AtomicNumber.Increment T this n s = Ok (static_cast T (v + n)) s_inc /\
    result_value (AtomicNumber.Value T this s_inc) = Some (static_cast T (v + n)) /\
    AtomicNumber.Decrement T this n s = Ok (static_cast T (v - n)) s_dec /\
    result_value (AtomicNumber.Value T this s_dec) = Some (static_cast T (v - n)).
Proof.
  intros Hs Hv.
  destruct (mem s !! this) as [w |] eqn:Hm.
  - rewrite (AtomicNumber_Value_sequential T s this w Hs Hm) in Hv.
    simpl in Hv. injection Hv as <-.
    eexists. eexists.
    split; [apply (AtomicNumber_Increment_sequential T s this w n Hs Hm) |].
    split.
    { erewrite AtomicNumber_Value_sequential;
        [| reflexivity | simpl; apply lookup_insert_eq].
      simpl. f_equal.
      rewrite static_cast_through_wider by apply width_le_AtomicWord.
      symmetry. apply static_cast_add_l. }
    split; [apply (AtomicNumber_Decrement_sequential T s this w n Hs Hm) |].
    erewrite AtomicNumber_Value_sequential;
      [| reflexivity | simpl; apply lookup_insert_eq].
    simpl. f_equal.
    rewrite static_cast_through_wider by apply width_le_AtomicWord.
    replace (w - n) with (w + - n) by lia.
    replace (static_cast T w - n) with (static_cast T w + - n) by lia.
    symmetry. apply static_cast_add_l.
  - exfalso. unfold AtomicNumber.Value, AtomicNumber.value_, Acquire_Load in Hv.
    unfold bind, preempt, load in Hv. rewrite Hs, Hm in Hv. discriminate Hv.
Qed.

(** An 8-bit counter at 255 wraps to 0. *)
Lemma AtomicNumber_Increment_wraps_scenario :
  result_value (AtomicNumber.Increment UInt8 100 1 (sequential {[100 := 255]})) = Some 0.
Proof.
  destruct (AtomicNumber_Increment_Decrement_return_the_new_value UInt8 100
              (sequential {[100 := 255]}) 255 1) as (s_inc & s_dec & Hinc & _).
  - reflexivity.
  - reflexivity.
  - rewrite Hinc. reflexivity.
Defined.

(** X2.  Sequentially, [Increment(n)] followed by [Decrement(n)] restores
    the stored word, whatever [n] is and even when the sum wraps around, and
    the [Decrement] returns the value the counter had at the start. *)
Theorem AtomicNumber_Decrement_undoes_Increment
    (T : IntType) (this : Address) (s : State) (w n : Z) :
  sched s = [] ->
  mem s !! this = Some w ->
  in_range kAtomicWord w ->
  exists s',
    (AtomicNumber.Increment T this n ;; AtomicNumber.Decrement T this n) s =
      Ok (static_cast T w) s' /\
    mem s' = mem s.
Proof.
  intros Hs Hm Hw.
  assert (E : static_cast T (static_cast T (static_cast kAtomicWord (w + n)) - n) =
              static_cast T w).
  { rewrite static_cast_through_wider by apply width_le_AtomicWord.
    replace (static_cast T (w + n) - n) with (static_cast T (w + n) + - n) by lia.
    rewrite static_cast_add_l. f_equal. lia. }
  eexists. split.
  - rewrite (bind_Ok _ _ _ _ _ (AtomicNumber_Increment_sequential T s this w n Hs Hm)).
    erewrite AtomicNumber_Decrement_sequential;
      [| reflexivity | simpl; apply lookup_insert_eq].
    rewrite E. reflexivity.
  - simpl. rewrite insert_insert_eq.
    replace (static_cast kAtomicWord (static_cast kAtomicWord (w + n) - n))
      with w.
    + apply insert_id. assumption.
    + replace (static_cast kAtomicWord (w + n) - n)
        with (static_cast kAtomicWord (w + n) + - n) by lia.
      rewrite static_cast_add_l.
      replace (w + n + - n) with w by lia.
      symmetry. apply static_cast_id. assumption.
Qed.

Lemma AtomicNumber_Decrement_undoes_Increment_scenario :
  result_value ((AtomicNumber.Increment Int32 100 5 ;; AtomicNumber.Decrement Int32 100 5)
                  (sequential {[100 := 2147483647]})) = Some 2147483647.
Proof.
  destruct (AtomicNumber_Decrement_undoes_Increment Int32 100
              (sequential {[100 := 2147483647]}) 2147483647 5) as (s' & Hrun & _).
  - reflexivity.
  - reflexivity.
  - in_range_by_computation.
  - rewrite Hrun. reflexivity.
Defined.

(** ** Stores, loads and compare-and-swap on the value cells *)

Lemma Relaxed_CompareAndSwap_sequential s ptr old_value new_value prev :
  sched s = [] -> mem s !! ptr = Some prev ->
  Relaxed_CompareAndSwap ptr old_value new_value s =
    Ok prev {| mem := if prev =? old_value then <[ptr := new_value]> (mem s) else mem s;
               trace := trace s ++ [EvCompareAndSwap Relaxed ptr old_value new_value prev];
               sched := [] |}.
Proof.
  intros Hs Hm. unfold Relaxed_CompareAndSwap.
  rewrite (bind_Ok _ _ _ _ _ (preempt_sequential s Hs)).
  unfold compare_and_swap. rewrite Hm, Hs. reflexivity.
Qed.

Lemma to_storage_type_inj T a b :
  in_range T a -> in_range T b ->
  cast_helper.to_storage_type T a = cast_helper.to_storage_type T b -> a = b.
Proof.
  intros Ha Hb Heq.
  rewrite <- (to_storage_roundtrip T a Ha), <- (to_storage_roundtrip T b Hb), Heq.
  reflexivity.
Qed.

Lemma NoBarrierAtomicValue_Value_sequential T s this v :
  sched s = [] -> in_range T v ->
  mem s !! this = Some (cast_helper.to_storage_type T v) ->
  NoBarrierAtomicValue.Value T this s =
    Ok v (log (EvLoad Relaxed this (cast_helper.to_storage_type T v)) s).
Proof.
  intros Hs Hv Hm. unfold NoBarrierAtomicValue.Value, NoBarrierAtomicValue.value_.
  rewrite (bind_Ok _ _ _ _ _ (Relaxed_Load_sequential s this _ Hs Hm)).
  unfold ret. rewrite to_storage_roundtrip by assumption. reflexivity.
Qed.

(** X3.  Sequentially, what [SetValue(x)] stores is what [Value()] then
    returns, for every [x] of the value type, on [AtomicNumber],
    [AtomicValue] and [NoBarrierAtomicValue]; the same holds right after the
    constructor that takes an initial value. *)
Theorem SetValue_then_Value_returns_the_value
    (T : IntType) (this : Address) (s : State) (x : Z) :
  sched s = [] ->
  is_Some (mem s !! this) ->
  in_range T x ->
  result_value ((AtomicNumber.SetValue this x ;; AtomicNumber.Value T this) s) = Some x /\
  result_value ((AtomicValue.SetValue T this x ;; AtomicValue.Value T this) s) = Some x /\
  result_value ((NoBarrierAtomicValue.SetValue T this x ;;
                 NoBarrierAtomicValue.Value T this) s) = Some x /\
  result_value ((AtomicNumber.ctor_initial this x ;; AtomicNumber.Value T this) s) = Some x /\
  result_value ((AtomicValue.ctor_initial T this x ;; AtomicValue.Value T this) s) = Some x /\
  result_value ((NoBarrierAtomicValue.ctor_initial T this x ;;
                 NoBarrierAtomicValue.Value T this) s) = Some x.
Proof.
  intros Hs [old Hm] Hx.
  assert (Hrt : static_cast T (static_cast kAtomicWord x) = x)
    by (apply static_cast_roundtrip; [apply width_le_AtomicWord | assumption]).
  repeat split.
  - unfold AtomicNumber.SetValue, AtomicNumber.value_.
    rewrite (bind_Ok _ _ _ _ _ (Release_Store_sequential s this _ old Hs Hm)).
    erewrite AtomicNumber_Value_sequential; [| reflexivity | simpl; apply lookup_insert_eq].
    simpl. rewrite Hrt. reflexivity.
  - unfold AtomicValue.SetValue, AtomicValue.value_.
    rewrite (bind_Ok _ _ _ _ _ (Release_Store_sequential s this _ old Hs Hm)).
    erewrite AtomicValue_Value_sequential;
      [reflexivity | reflexivity | exact Hx | simpl; apply lookup_insert_eq].
  - unfold NoBarrierAtomicValue.SetValue, NoBarrierAtomicValue.value_.
    rewrite (bind_Ok _ _ _ _ _ (Relaxed_Store_sequential s this _ old Hs Hm)).
    erewrite NoBarrierAtomicValue_Value_sequential;
      [reflexivity | reflexivity | exact Hx | simpl; apply lookup_insert_eq].
  - unfold AtomicNumber.ctor_initial, AtomicNumber.value_, init, bind at 1.
    erewrite AtomicNumber_Value_sequential; [| exact Hs | simpl; apply lookup_insert_eq].
    simpl. rewrite Hrt. reflexivity.
  - unfold AtomicValue.ctor_initial, AtomicValue.value_, init, bind at 1.
    erewrite AtomicValue_Value_sequential;
      [reflexivity | exact Hs | exact Hx | simpl; apply lookup_insert_eq].
  - unfold NoBarrierAtomicValue.ctor_initial, NoBarrierAtomicValue.value_, init, bind at 1.
    erewrite NoBarrierAtomicValue_Value_sequential;
      [reflexivity | exact Hs | exact Hx | simpl; apply lookup_insert_eq].
Qed.

Lemma SetValue_then_Value_scenario :
  result_value ((AtomicValue.SetValue Int8 100 (-3) ;; AtomicValue.Value Int8 100)
                  (sequential {[100 := 0]})) = Some (-3).
Proof.
  destruct (SetValue_then_Value_returns_the_value Int8 100 (sequential {[100 := 0]}) (-3))
    as (_ & Hv & _).
  - reflexivity.
  - exists 0. reflexivity.
  - in_range_by_computation.
  - exact Hv.
Defined.

(** X4.  Sequentially, on a cell holding [v], [TrySetValue(old, new)]
    succeeds exactly when [v] is [old]: then it returns true and the cell
    holds [new]; otherwise it returns false and memory is left as it was.
    This holds for [AtomicValue] and for [NoBarrierAtomicValue]. *)
Theorem TrySetValue_succeeds_iff_cell_holds_old
    (T : IntType) (this : Address) (s : State) (v old_value new_value : Z) :
  sched s = [] ->
  in_range T v -> in_range T old_value -> in_range T new_value ->
  mem s !! this = Some (cast_helper.to_storage_type T v) ->
  exists s1 s2,
    AtomicValue.TrySetValue T this old_value new_value s = Ok (bool_decide (v = old_value)) s1 /\
    NoBarrierAtomicValue.TrySetValue T this old_value new_value s =
      Ok (bool_decide (v = old_value)) s2 /\
    (v = old_value ->
       result_value (AtomicValue.Value T this s1) = Some new_value /\
       result_value (NoBarrierAtomicValue.Value T this s2) = Some new_value) /\
    (v <> old_value -> mem s1 = mem s /\ mem s2 = mem s).
Proof.
  intros Hs Hv Hold Hnew Hm.
  assert (Hdec : (cast_helper.to_storage_type T v =? cast_helper.to_storage_type T old_value)
                 = bool_decide (v = old_value)).
  { destruct (Z.eqb_spec (cast_helper.to_storage_type T v)
                         (cast_helper.to_storage_type T old_value)) as [Heq | Hne].
    - rewrite bool_decide_eq_true_2; [reflexivity |].
      apply (to_storage_type_inj T); assumption.
    - rewrite bool_decide_eq_false_2; [reflexivity |]. congruence. }
  eexists. eexists. split; [| split; [| split]].
  - unfold AtomicValue.TrySetValue, AtomicValue.value_.
    rewrite (bind_Ok _ _ _ _ _ (Release_CompareAndSwap_sequential s this _ _ _ Hs Hm)).
    unfold ret. rewrite Hdec. reflexivity.
  - unfold NoBarrierAtomicValue.TrySetValue, NoBarrierAtomicValue.value_.
    rewrite (bind_Ok _ _ _ _ _ (Relaxed_CompareAndSwap_sequential s this _ _ _ Hs Hm)).
    unfold ret. rewrite Hdec. reflexivity.
  - intros Heq. split.
    + erewrite AtomicValue_Value_sequential;
        [reflexivity | reflexivity | exact Hnew |].
      cbn [mem]. rewrite bool_decide_eq_true_2 by assumption. apply lookup_insert_eq.
    + erewrite NoBarrierAtomicValue_Value_sequential;
        [reflexivity | reflexivity | exact Hnew |].
      cbn [mem]. rewrite bool_decide_eq_true_2 by assumption. apply lookup_insert_eq.
  - intros Hne. cbn [mem]. rewrite bool_decide_eq_false_2 by assumption.
    split; reflexivity.
Qed.

Lemma TrySetValue_scenario :
  result_value (AtomicValue.TrySetValue UInt32 100 7 9 (sequential {[100 := 8]})) = Some false.
Proof.
  destruct (TrySetValue_succeeds_iff_cell_holds_old UInt32 100 (sequential {[100 := 8]}) 8 7 9)
    as (s1 & s2 & Hrun & _).
  - reflexivity.
  - in_range_by_computation.
  - in_range_by_computation.
  - in_range_by_computation.
  - reflexivity.
  - rewrite Hrun. reflexivity.
Defined.

(** ** Single bits of a bitmask cell *)

(** The sequential run of [SetBits] and the value the cell reads as after. *)
Lemma AtomicValue_SetBits_sequential T fuel this s v bits mask :
  sched s = [] ->
  in_range T v -> in_range T bits -> in_range T mask ->
  Z.land bits (Z.lnot mask) = 0 ->
  mem s !! this = Some (cast_helper.to_storage_type T v) ->
  exists s',
    AtomicValue.SetBits T (S fuel) this bits mask s = Ok tt s' /\
    sched s' = [] /\
    mem s' = <[this := cast_helper.to_storage_type T (Z.lor (Z.land v (Z.lnot mask)) bits)]>
               (mem s) /\
    result_value (AtomicValue.Value T this s') = Some (Z.lor (Z.land v (Z.lnot mask)) bits).
Proof.
  intros Hs Hv Hb Hm Hd Hmem.
  assert (Hnew : in_range T (Z.lor (Z.land v (Z.lnot mask)) bits))
    by (apply in_range_set_bits; assumption).
  eexists. split; [| split; [| split]].
  - unfold AtomicValue.SetBits, DCHECK_EQ, DCHECK.
    rewrite Hd, static_cast_zero. simpl Z.eqb. cbv iota.
    unfold bind at 1, ret at 1. cbn [AtomicValue.SetBits_loop].
    rewrite (bind_Ok _ _ _ _ _ (AtomicValue_Value_sequential T s this v Hs Hv Hmem)).
    rewrite (static_cast_id T _ Hnew).
    unfold AtomicValue.TrySetValue, AtomicValue.value_.
    erewrite (bind_Ok (bind _ _)).
    2:{ erewrite bind_Ok.
        2:{ apply Release_CompareAndSwap_sequential; [exact Hs | exact Hmem]. }
        reflexivity. }
    rewrite Z.eqb_refl. reflexivity.
  - reflexivity.
  - reflexivity.
  - erewrite AtomicValue_Value_sequential; [reflexivity | reflexivity | exact Hnew |].
    cbn [mem log]. apply lookup_insert_eq.
Qed.

Lemma static_cast_one ty : static_cast ty 1 = 1.
Proof. destruct ty; reflexivity. Qed.

Lemma width_promoted ty : width ty <= width (promoted ty).
Proof. destruct ty; vm_compute; discriminate. Qed.

(** The operand of [SetBit], below the width of the type: only bit [bit]. *)
Lemma testbit_SetBit_operand T bit i :
  0 <= bit -> 0 <= i < width T ->
  Z.testbit (static_cast T (static_cast (promoted T) (Z.shiftl (static_cast T 1) bit))) i
    = (i =? bit).
Proof.
  intros Hbit Hi. pose proof (width_promoted T).
  rewrite static_cast_one, Z.shiftl_1_l.
  rewrite testbit_static_cast by lia.
  destruct (Z.ltb_spec i (width T)); [| lia].
  rewrite testbit_static_cast by lia.
  destruct (Z.ltb_spec i (width (promoted T))); [| lia].
  rewrite Z.pow2_bits_eqb by assumption. apply Z.eqb_sym.
Qed.

(** The mask of [ClearBit], an [int] converted to [T]: for a bit below 31,
    only bit [bit]. *)
Lemma testbit_ClearBit_mask T bit i :
  0 <= bit < 31 -> 0 <= i < width T ->
  Z.testbit (static_cast T (static_cast Int32 (Z.shiftl 1 bit))) i = (i =? bit).
Proof.
  intros Hbit Hi. rewrite Z.shiftl_1_l.
  rewrite testbit_static_cast by lia.
  destruct (Z.ltb_spec i (width T)); [| lia].
  rewrite testbit_static_cast by lia.
  change (width Int32) with 32. change (is_signed Int32) with true.
  change (32 - 1) with 31. rewrite andb_true_l.
  rewrite !Z.pow2_bits_eqb by lia.
  destruct (Z.ltb_spec i 32), (Z.eqb_spec bit i), (Z.eqb_spec i bit), (Z.eqb_spec bit 31);
    try reflexivity; lia.
Qed.

(** X5.  Sequentially, on a cell that reads as [v]: [SetBit(bit)], for a
    bit position of the value type, leaves a value whose bit [bit] is one
    and whose other bits are those of [v]; [ClearBit(bit)], for a bit below
    31 (its mask is computed as an [int]), leaves a value whose bit [bit] is
    zero and whose other bits are those of [v]. *)
Theorem SetBit_and_ClearBit_change_one_bit
    (T : IntType) (fuel : nat) (this : Address) (s : State) (v bit : Z) :
  sched s = [] ->
  in_range T v ->
  mem s !! this = Some (cast_helper.to_storage_type T v) ->
  (0 <= bit < width T ->
     exists s' v',
       AtomicValue.SetBit T (S fuel) this bit s = Ok tt s' /\
       result_value (AtomicValue.Value T this s') = Some v' /\
       in_range T v' /\
       forall i, 0 <= i < width T -> Z.testbit v' i = (i =? bit) || Z.testbit v i) /\
  (0 <= bit < 31 ->
     exists s' v',
       AtomicValue.ClearBit T (S fuel) this bit s = Ok tt s' /\
       result_value (AtomicValue.Value T this s') = Some v' /\
       in_range T v' /\
       forall i, 0 <= i < width T -> Z.testbit v' i = negb (i =? bit) && Z.testbit v i).
Proof.
  intros Hs Hv Hm. split; intros Hbit.
  - set (b := static_cast T (static_cast (promoted T) (Z.shiftl (static_cast T 1) bit))).
    assert (Hb : in_range T b) by apply static_cast_in_range.
    assert (Hd : Z.land b (Z.lnot b) = 0) by apply Z.land_lnot_diag.
    destruct (AtomicValue_SetBits_sequential T fuel this s v b b Hs Hv Hb Hb Hd Hm)
      as (s' & Hrun & _ & _ & Hval).
    exists s', (Z.lor (Z.land v (Z.lnot b)) b).
    split; [exact Hrun |]. split; [exact Hval |].
    split; [apply in_range_set_bits; assumption |].
    intros i Hi. rewrite testbit_set_bits by (assumption || lia).
    unfold b. rewrite testbit_SetBit_operand by lia.
    destruct (i =? bit); reflexivity.
  - set (m := static_cast T (static_cast Int32 (Z.shiftl 1 bit))).
    assert (Hmask : in_range T m) by apply static_cast_in_range.
    assert (Hz : in_range T (static_cast T 0)) by apply static_cast_in_range.
    assert (Hd : Z.land (static_cast T 0) (Z.lnot m) = 0)
      by (rewrite static_cast_zero; apply Z.land_0_l).
    destruct (AtomicValue_SetBits_sequential T fuel this s v (static_cast T 0) m
                Hs Hv Hz Hmask Hd Hm) as (s' & Hrun & _ & _ & Hval).
    exists s', (Z.lor (Z.land v (Z.lnot m)) (static_cast T 0)).
    split; [exact Hrun |]. split; [exact Hval |].
    split; [apply in_range_set_bits; assumption |].
    intros i Hi. rewrite testbit_set_bits by (assumption || lia).
    unfold m. rewrite testbit_ClearBit_mask by lia.
    rewrite static_cast_zero, Z.bits_0.
    destruct (i =? bit); reflexivity.
Qed.

(** On an 8-bit cell holding 1, [SetBit(7)] sets the top bit and keeps
    bit 0. *)
Lemma SetBit_scenario :
  exists s' v',
    AtomicValue.SetBit UInt8 1 100 7 (sequential {[100 := 1]}) = Ok tt s' /\
    result_value (AtomicValue.Value UInt8 100 s') = Some v' /\
    Z.testbit v' 7 = true /\ Z.testbit v' 0 = true.
Proof.
  destruct (SetBit_and_ClearBit_change_one_bit UInt8 0 100 (sequential {[100 := 1]}) 1 7)
    as (Hset & _).
  - reflexivity.
  - in_range_by_computation.
  - reflexivity.
  - destruct Hset as (s' & v' & Hrun & Hval & _ & Hbits);
      [change (width UInt8) with 8; lia |].
    exists s', v'. split; [exact Hrun |]. split; [exact Hval |].
    split; rewrite Hbits by (change (width UInt8) with 8; lia); reflexivity.
Defined.

(** ** More on the type-erased accessors *)

Lemma set_bits_when_already_set v bits mask :
  Z.land v mask = bits -> Z.lor (Z.land v (Z.lnot mask)) bits = v.
Proof.
  intros <-. apply Z.bits_inj'. intros i Hi.
  rewrite Z.lor_spec, !Z.land_spec, Z.lnot_spec by assumption.
  destruct (Z.testbit v i), (Z.testbit mask i); reflexivity.
Qed.

Lemma land_mask_after_set_bits v bits mask :
  Z.land bits (Z.lnot mask) = 0 ->
  Z.land (Z.lor (Z.land v (Z.lnot mask)) bits) mask = bits.
Proof.
  intros Hd. apply Z.bits_inj'. intros i Hi.
  assert (Hbit : Z.testbit bits i && negb (Z.testbit mask i) = false).
  { rewrite <- Z.lnot_spec, <- Z.land_spec by assumption. rewrite Hd. apply Z.bits_0. }
  rewrite Z.land_spec, Z.lor_spec, Z.land_spec, Z.lnot_spec by assumption.
  destruct (Z.testbit v i), (Z.testbit mask i), (Z.testbit bits i);
    simpl in *; congruence.
Qed.

(** The sequential run of [AsAtomic32::SetBits]: its answer, and the word
    the location holds afterwards in either case. *)
Lemma AsAtomic32_SetBits_sequential T fuel addr s v bits mask :
  sched s = [] ->
  width T <= width kAtomic32 ->
  in_range T v -> in_range T bits -> in_range T mask ->
  Z.land bits (Z.lnot mask) = 0 ->
  mem s !! addr = Some (AsAtomic32.to_storage_type v) ->
  exists s',
    AsAtomic32.SetBits T (S fuel) addr bits mask s =
      Ok (negb (Z.land v mask =? bits)) s' /\
    sched s' = [] /\
    mem s' = <[addr := AsAtomic32.to_storage_type (Z.lor (Z.land v (Z.lnot mask)) bits)]>
               (mem s) /\
    (Z.land v mask = bits -> mem s' = mem s).
Proof.
  intros Hs Hw Hv Hb Hm Hd Hmem.
  assert (Hnew : in_range T (Z.lor (Z.land v (Z.lnot mask)) bits))
    by (apply in_range_set_bits; assumption).
  assert (Hstart : forall k : unit -> M bool,
            bind (DCHECK_EQ (Z.land bits (Z.lnot mask)) (static_cast T 0)) k s = k tt s).
  { intros k. unfold DCHECK_EQ, DCHECK. rewrite Hd, static_cast_zero. reflexivity. }
  unfold AsAtomic32.SetBits. rewrite Hstart. cbn [AsAtomic32.SetBits_loop].
  rewrite (bind_Ok _ _ _ _ _
             (AsAtomic32_Relaxed_Load_sequential T s addr v Hs Hw Hv Hmem)).
  destruct (Z.eqb_spec (Z.land v mask) bits) as [Heq | Hne].
  - eexists. split; [reflexivity |]. split; [exact Hs |]. split.
    + cbn [mem log]. rewrite (set_bits_when_already_set v bits mask Heq).
      symmetry. apply insert_id. exact Hmem.
    + intros _. reflexivity.
  - rewrite (static_cast_id T _ Hnew).
    unfold AsAtomic32.Release_CompareAndSwap, AsAtomic32.to_storage_addr.
    erewrite (bind_Ok (bind _ _)).
    2:{ erewrite bind_Ok.
        2:{ apply Release_CompareAndSwap_sequential; [exact Hs | exact Hmem]. }
        reflexivity. }
    rewrite AsAtomic32_roundtrip by assumption.
    rewrite !Z.eqb_refl. simpl negb. cbv iota.
    eexists. split; [reflexivity |]. split; [reflexivity |]. split; [reflexivity |].
    intros Heq. contradiction.
Qed.

(** X6.  Sequentially, once [AsAtomic32::SetBits(addr, bits, mask)] has
    run, running it again returns [false] and changes nothing: the first
    call reports whether it had to write, the second finds the bits set. *)
Theorem AsAtomic32_SetBits_twice_is_SetBits_once
    (T : IntType) (fuel : nat) (addr : Address) (s : State) (v bits mask : Z) :
  sched s = [] ->
  width T <= width kAtomic32 ->
  in_range T v -> in_range T bits -> in_range T mask ->
  Z.land bits (Z.lnot mask) = 0 ->
  mem s !! addr = Some (AsAtomic32.to_storage_type v) ->
  exists s1 s2,
    AsAtomic32.SetBits T (S fuel) addr bits mask s = Ok (negb (Z.land v mask =? bits)) s1 /\
    AsAtomic32.SetBits T (S fuel) addr bits mask s1 = Ok false s2 /\
    mem s2 = mem s1.
Proof.
  intros Hs Hw Hv Hb Hm Hd Hmem.
  destruct (AsAtomic32_SetBits_sequential T fuel addr s v bits mask Hs Hw Hv Hb Hm Hd Hmem)
    as (s1 & Hrun1 & Hs1 & Hmem1 & _).
  assert (Hnew : in_range T (Z.lor (Z.land v (Z.lnot mask)) bits))
    by (apply in_range_set_bits; assumption).
  assert (Hat : mem s1 !! addr =
                Some (AsAtomic32.to_storage_type (Z.lor (Z.land v (Z.lnot mask)) bits)))
    by (rewrite Hmem1; apply lookup_insert_eq).
  destruct (AsAtomic32_SetBits_sequential T fuel addr s1 _ bits mask Hs1 Hw Hnew Hb Hm Hd Hat)
    as (s2 & Hrun2 & _ & _ & Hsame).
  rewrite (land_mask_after_set_bits v bits mask Hd), Z.eqb_refl in Hrun2.
  exists s1, s2. split; [exact Hrun1 |]. split; [exact Hrun2 |].
  apply Hsame. apply land_mask_after_set_bits. exact Hd.
Qed.

Lemma AsAtomic32_SetBits_twice_scenario :
  result_value ((AsAtomic32.SetBits UInt32 1 100 4 12 ;; AsAtomic32.SetBits UInt32 1 100 4 12)
                  (sequential {[100 := 9]})) = Some false.
Proof.
  destruct (AsAtomic32_SetBits_twice_is_SetBits_once UInt32 0 100
              (sequential {[100 := 9]}) 9 4 12) as (s1 & s2 & Hrun1 & Hrun2 & _).
  - reflexivity.
  - discriminate.
  - in_range_by_computation.
  - in_range_by_computation.
  - in_range_by_computation.
  - reflexivity.
  - reflexivity.
  - rewrite (bind_Ok _ _ _ _ _ Hrun1), Hrun2. reflexivity.
Defined.

Lemma AsAtomicWord_roundtrip p :
  in_range UInt64 p -> AsAtomicWord.to_return_type (AsAtomicWord.to_storage_type p) = p.
Proof.
  intros Hp. unfold AsAtomicWord.to_return_type, AsAtomicWord.to_storage_type.
  apply static_cast_roundtrip; [reflexivity | assumption].
Qed.

(** X7.  Sequentially, a value stored through a type-erased accessor is the
    value loaded back through it, with either pair of memory orders: for
    [AsAtomic32] with any value of a type no wider than [Atomic32], and for
    [AsAtomicWord] with any pointer. *)
Theorem type_erased_store_then_load_returns_the_value
    (T : IntType) (addr : Address) (s : State) (x p : Z) :
  sched s = [] ->
  is_Some (mem s !! addr) ->
  width T <= width kAtomic32 -> in_range T x ->
  in_range UInt64 p ->
  result_value ((AsAtomic32.Release_Store addr x ;; AsAtomic32.Acquire_Load T addr) s)
    = Some x /\
  result_value ((AsAtomic32.Relaxed_Store addr x ;; AsAtomic32.Relaxed_Load T addr) s)
    = Some x /\
  result_value ((AsAtomicWord.Release_Store addr p ;; AsAtomicWord.Acquire_Load addr) s)
    = Some p /\
  result_value ((AsAtomicWord.Relaxed_Store addr p ;; AsAtomicWord.Relaxed_Load addr) s)
    = Some p.
Proof.
  intros Hs [old Hm] Hw Hx Hp.
  repeat split.
  - unfold AsAtomic32.Release_Store, AsAtomic32.Acquire_Load, AsAtomic32.to_storage_addr.
    rewrite (bind_Ok _ _ _ _ _ (Release_Store_sequential s addr _ old Hs Hm)).
    erewrite bind_Ok;
      [| apply Acquire_Load_sequential; [reflexivity | cbn [mem]; apply lookup_insert_eq]].
    unfold ret. cbn [result_value]. rewrite AsAtomic32_roundtrip by assumption. reflexivity.
  - unfold AsAtomic32.Relaxed_Store, AsAtomic32.Relaxed_Load, AsAtomic32.to_storage_addr.
    rewrite (bind_Ok _ _ _ _ _ (Relaxed_Store_sequential s addr _ old Hs Hm)).
    erewrite bind_Ok;
      [| apply Relaxed_Load_sequential; [reflexivity | cbn [mem]; apply lookup_insert_eq]].
    unfold ret. cbn [result_value]. rewrite AsAtomic32_roundtrip by assumption. reflexivity.
  - unfold AsAtomicWord.Release_Store, AsAtomicWord.Acquire_Load, AsAtomicWord.to_storage_addr.
    rewrite (bind_Ok _ _ _ _ _ (Release_Store_sequential s addr _ old Hs Hm)).
    erewrite bind_Ok;
      [| apply Acquire_Load_sequential; [reflexivity | cbn [mem]; apply lookup_insert_eq]].
    unfold ret. cbn [result_value]. rewrite AsAtomicWord_roundtrip by assumption. reflexivity.
  - unfold AsAtomicWord.Relaxed_Store, AsAtomicWord.Relaxed_Load, AsAtomicWord.to_storage_addr.
    rewrite (bind_Ok _ _ _ _ _ (Relaxed_Store_sequential s addr _ old Hs Hm)).
    erewrite bind_Ok;
      [| apply Relaxed_Load_sequential; [reflexivity | cbn [mem]; apply lookup_insert_eq]].
    unfold ret. cbn [result_value]. rewrite AsAtomicWord_roundtrip by assumption. reflexivity.
Qed.

Lemma type_erased_store_then_load_scenario :
  result_value ((AsAtomic32.Release_Store 100 4000000000 ;; AsAtomic32.Acquire_Load UInt32 100)
                  (sequential {[100 := 0]})) = Some 4000000000.
Proof.
  destruct (type_erased_store_then_load_returns_the_value UInt32 100
              (sequential {[100 := 0]}) 4000000000 18446744073709551615) as (Hv & _).
  - reflexivity.
  - exists 0. reflexivity.
  - discriminate.
  - in_range_by_computation.
  - in_range_by_computation.
  - exact Hv.
Defined.

Lemma AsAtomic32_to_storage_type_inj T a b :
  width T <= width kAtomic32 -> in_range T a -> in_range T b ->
  AsAtomic32.to_storage_type a = AsAtomic32.to_storage_type b -> a = b.
Proof.
  intros Hw Ha Hb Heq.
  rewrite <- (AsAtomic32_roundtrip T a Hw Ha), <- (AsAtomic32_roundtrip T b Hw Hb), Heq.
  reflexivity.
Qed.

(** X8.  Sequentially, on a location whose word is the image of [v],
    [AsAtomic32::Release_CompareAndSwap(addr, old, new)] returns [v]; it
    installs [new] when [v] is [old] and leaves memory as it was otherwise.
    So the returned value is [old] exactly when the swap was made. *)
Theorem AsAtomic32_CompareAndSwap_returns_the_value_found
    (T : IntType) (addr : Address) (s : State) (v old_value new_value : Z) :
  sched s = [] ->
  width T <= width kAtomic32 ->
  in_range T v -> in_range T old_value -> in_range T new_value ->
  mem s !! addr = Some (AsAtomic32.to_storage_type v) ->
  exists s',
    AsAtomic32.Release_CompareAndSwap T addr old_value new_value s = Ok v s' /\
    (v = old_value ->
       result_value (AsAtomic32.Relaxed_Load T addr s') = Some new_value) /\
    (v <> old_value -> mem s' = mem s).
Proof.
  intros Hs Hw Hv Hold Hnew Hm.
  eexists. split; [| split].
  - unfold AsAtomic32.Release_CompareAndSwap, AsAtomic32.to_storage_addr.
    rewrite (bind_Ok _ _ _ _ _ (Release_CompareAndSwap_sequential s addr _ _ _ Hs Hm)).
    unfold ret. rewrite AsAtomic32_roundtrip by assumption. reflexivity.
  - intros ->.
    erewrite AsAtomic32_Relaxed_Load_sequential;
      [reflexivity | reflexivity | exact Hw | exact Hnew |].
    cbn [mem]. rewrite Z.eqb_refl. apply lookup_insert_eq.
  - intros Hne. cbn [mem].
    destruct (Z.eqb_spec (AsAtomic32.to_storage_type v) (AsAtomic32.to_storage_type old_value))
      as [Heq | _]; [| reflexivity].
    exfalso. apply Hne. apply (AsAtomic32_to_storage_type_inj T); assumption.
Qed.

Lemma AsAtomic32_CompareAndSwap_scenario :
  result_value (AsAtomic32.Release_CompareAndSwap Int32 100 (-1) 7 (sequential {[100 := -1]}))
    = Some (-1).
Proof.
  destruct (AsAtomic32_CompareAndSwap_returns_the_value_found Int32 100
              (sequential {[100 := -1]}) (-1) (-1) 7) as (s' & Hrun & _).
  - reflexivity.
  - discriminate.
  - in_range_by_computation.
  - in_range_by_computation.
  - in_range_by_computation.
  - reflexivity.
  - rewrite Hrun. reflexivity.
Defined.

(** ** The atomic enum set as a set *)

Lemma indices_In n : forall lo i, In i (indices n lo) -> lo <= i < lo + Z.of_nat n.
Proof.
  induction n as [| n IH]; intros lo i Hin; [destruct Hin |].
  simpl in Hin. destruct Hin as [<- | Hin]; [lia |].
  apply IH in Hin. lia.
Qed.

(** A non-zero word has one of its 64 bits set. *)
Lemma AtomicWord_nonzero_bit z :
  in_range kAtomicWord z ->
  (z =? 0) = negb (existsb (fun i => Z.testbit z i) (indices 64 0)).
Proof.
  intros Hz. destruct (existsb (fun i => Z.testbit z i) (indices 64 0)) eqn:Hex; simpl.
  - apply existsb_exists in Hex. destruct Hex as (i & Hin & Hbit).
    apply Z.eqb_neq. intros ->. rewrite Z.bits_0 in Hbit. discriminate.
  - apply Z.eqb_eq. apply Z.bits_inj'. intros i Hi. rewrite Z.bits_0.
    assert (Hlow : forall j, 0 <= j < 64 -> Z.testbit z j = false).
    { intros j Hj. destruct (Z.testbit z j) eqn:Hbit; [| reflexivity].
      assert (Hc : existsb (fun i => Z.testbit z i) (indices 64 0) = true).
      { apply existsb_exists. exists j. split; [| exact Hbit].
        apply In_indices. lia. }
      congruence. }
    destruct (Z.ltb_spec i 64); [apply Hlow; lia |].
    rewrite (testbit_in_range_high kAtomicWord z i Hz)
      by (change (width kAtomicWord) with 64; lia).
    change (width kAtomicWord - 1) with 63. rewrite Hlow by lia. reflexivity.
Qed.

(** Two words of a set are the same word when they agree on the 64 elements. *)
Lemma AtomicWord_eq_of_bits w w' :
  in_range kAtomicWord w -> in_range kAtomicWord w' ->
  (forall e, 0 <= e < 64 -> Z.testbit w e = Z.testbit w' e) -> w = w'.
Proof.
  intros Hw Hw' Hbits. apply Z.bits_inj'. intros i Hi.
  destruct (Z.ltb_spec i 64); [apply Hbits; lia |].
  rewrite (testbit_in_range_high kAtomicWord w i Hw),
    (testbit_in_range_high kAtomicWord w' i Hw')
    by (change (width kAtomicWord) with 64; lia).
  change (width kAtomicWord - 1) with 63. rewrite Hbits by lia. reflexivity.
Qed.

Lemma in_range_land ty a b : in_range ty a -> in_range ty b -> in_range ty (Z.land a b).
Proof.
  intros Ha Hb. apply in_range_of_bits. intros i Hi.
  rewrite !Z.land_spec. bits_high ty.
  destruct (is_signed ty), (Z.testbit a (width ty - 1)), (Z.testbit b (width ty - 1)); reflexivity.
Qed.

Lemma ToIntegral_sequential this s w :
  sched s = [] -> mem s !! AtomicEnumSet.bits_ this = Some w ->
  AtomicEnumSet.ToIntegral this s =
    Ok w (log (EvLoad Acquire (AtomicEnumSet.bits_ this) w) s).
Proof. intros Hs Hm. apply Acquire_Load_sequential; assumption. Qed.

(** X9.  Sequentially, after [RemoveAll()] the set is empty: [IsEmpty()] is
    true, [Contains(e)] is false for every element, and [ContainsAnyOf] is
    false against any set. *)
Theorem RemoveAll_empties_the_set
    (this set : Address) (s : State) (e : Z) :
  sched s = [] ->
  is_Some (mem s !! AtomicEnumSet.bits_ this) ->
  is_Some (mem s !! AtomicEnumSet.bits_ set) ->
  result_value ((AtomicEnumSet.RemoveAll this ;; AtomicEnumSet.IsEmpty this) s) = Some true /\
  result_value ((AtomicEnumSet.RemoveAll this ;; AtomicEnumSet.Contains this e) s)
    = Some false /\
  result_value ((AtomicEnumSet.RemoveAll this ;; AtomicEnumSet.ContainsAnyOf this set) s)
    = Some false.
Proof.
  intros Hs [old Hm] [w' Hset].
  unfold AtomicEnumSet.RemoveAll.
  pose proof (Release_Store_sequential s _ 0 old Hs Hm) as Hstore.
  repeat split; rewrite (bind_Ok _ _ _ _ _ Hstore).
  - unfold AtomicEnumSet.IsEmpty.
    erewrite bind_Ok;
      [| apply ToIntegral_sequential; [reflexivity | cbn [mem]; apply lookup_insert_eq]].
    reflexivity.
  - unfold AtomicEnumSet.Contains.
    erewrite bind_Ok;
      [| apply ToIntegral_sequential; [reflexivity | cbn [mem]; apply lookup_insert_eq]].
    reflexivity.
  - unfold AtomicEnumSet.ContainsAnyOf.
    erewrite bind_Ok;
      [| apply ToIntegral_sequential; [reflexivity | cbn [mem]; apply lookup_insert_eq]].
    destruct (decide (AtomicEnumSet.bits_ this = AtomicEnumSet.bits_ set)) as [Heq | Hne].
    + erewrite bind_Ok;
        [| apply ToIntegral_sequential;
           [reflexivity | cbn [mem log]; rewrite <- Heq; apply lookup_insert_eq]].
      reflexivity.
    + erewrite bind_Ok;
        [| apply ToIntegral_sequential;
           [reflexivity
           | cbn [mem log]; rewrite lookup_insert_ne by exact Hne; exact Hset]].
      reflexivity.
Qed.

Lemma RemoveAll_scenario :
  result_value ((AtomicEnumSet.RemoveAll 7 ;; AtomicEnumSet.IsEmpty 7)
                  (sequential {[7 := 5]})) = Some true.
Proof.
  destruct (RemoveAll_empties_the_set 7 7 (sequential {[7 := 5]}) 0) as (Hempty & _).
  - reflexivity.
  - exists 5. reflexivity.
  - exists 5. reflexivity.
  - exact Hempty.
Defined.

(** One successful attempt of [ATOMIC_SET_WRITE] when [NEW_VAL] reads
    memory without changing it. *)
Lemma ATOMIC_SET_WRITE_sequential_reading fuel this OP (NEW_VAL : M Z) new_val s w :
  sched s = [] -> mem s !! AtomicEnumSet.bits_ this = Some w ->
  (forall s1, sched s1 = [] -> mem s1 = mem s ->
     exists s2, NEW_VAL s1 = Ok new_val s2 /\ sched s2 = [] /\ mem s2 = mem s) ->
  exists s',
    AtomicEnumSet.ATOMIC_SET_WRITE (S fuel) this OP NEW_VAL s = Ok tt s' /\
    sched s' = [] /\
    mem s' = <[AtomicEnumSet.bits_ this := OP w new_val]> (mem s).
Proof.
  intros Hs Hm Hnv. cbn [AtomicEnumSet.ATOMIC_SET_WRITE].
  rewrite (bind_Ok _ _ _ _ _ (Acquire_Load_sequential s _ w Hs Hm)).
  destruct (Hnv (log (EvLoad Acquire (AtomicEnumSet.bits_ this) w) s) Hs eq_refl)
    as (s2 & Hrun & Hs2 & Hm2).
  rewrite (bind_Ok _ _ _ _ _ Hrun).
  assert (Hat : mem s2 !! AtomicEnumSet.bits_ this = Some w) by (rewrite Hm2; exact Hm).
  rewrite (bind_Ok _ _ _ _ _ (Release_CompareAndSwap_sequential s2 _ w (OP w new_val) w Hs2 Hat)).
  rewrite !Z.eqb_refl. simpl negb. cbv iota.
  eexists. split; [reflexivity |]. split; [reflexivity |].
  cbn [mem]. rewrite Hm2. reflexivity.
Qed.

Lemma ToIntegral_reads set s w' :
  mem s !! AtomicEnumSet.bits_ set = Some w' ->
  forall s1, sched s1 = [] -> mem s1 = mem s ->
    exists s2, AtomicEnumSet.ToIntegral set s1 = Ok w' s2 /\ sched s2 = [] /\ mem s2 = mem s.
Proof.
  intros Hset s1 Hs1 Hm1. eexists. split; [| split].
  - apply ToIntegral_sequential; [exact Hs1 | rewrite Hm1; exact Hset].
  - exact Hs1.
  - exact Hm1.
Qed.

(** X10.  Sequentially, the set-valued updates are union, difference and
    intersection: after [Add(set)] the set contains [e] when it or [set]
    contained it, after [Remove(set)] when it contained it and [set] did
    not, after [Intersect(set)] when both contained it.  [set] may be the
    set itself. *)
Theorem AtomicEnumSet_set_updates_are_union_difference_intersection
    (fuel : nat) (this set : Address) (s : State) (w w' e : Z) :
  sched s = [] ->
  mem s !! AtomicEnumSet.bits_ this = Some w ->
  mem s !! AtomicEnumSet.bits_ set = Some w' ->
  in_range kAtomicWord w -> in_range kAtomicWord w' ->
  0 <= e < 64 ->
  result_value (AtomicEnumSet.Contains this e s) = Some (Z.testbit w e) /\
  result_value (AtomicEnumSet.Contains set e s) = Some (Z.testbit w' e) /\
  result_value ((AtomicEnumSet.Add_set (S fuel) this set ;; AtomicEnumSet.Contains this e) s)
    = Some (Z.testbit w e || Z.testbit w' e) /\
  result_value ((AtomicEnumSet.Remove_set (S fuel) this set ;; AtomicEnumSet.Contains this e) s)
    = Some (Z.testbit w e && negb (Z.testbit w' e)) /\
  result_value ((AtomicEnumSet.Intersect (S fuel) this set ;; AtomicEnumSet.Contains this e) s)
    = Some (Z.testbit w e && Z.testbit w' e).
Proof.
  intros Hs Hm Hset Hw Hw' He.
  split; [rewrite (Contains_sequential this e s w Hs Hm Hw He); reflexivity |].
  split; [rewrite (Contains_sequential set e s w' Hs Hset Hw' He); reflexivity |].
  split; [| split].
  - destruct (ATOMIC_SET_WRITE_sequential_reading fuel this Z.lor
                (AtomicEnumSet.ToIntegral set) w' s w Hs Hm (ToIntegral_reads set s w' Hset))
      as (s' & Hrun & Hs' & Hm').
    unfold AtomicEnumSet.Add_set. rewrite (bind_Ok _ _ _ _ _ Hrun).
    erewrite Contains_sequential;
      [| exact Hs' | rewrite Hm'; apply lookup_insert_eq
       | apply in_range_lor; assumption | exact He].
    cbn [result_value]. rewrite Z.lor_spec. reflexivity.
  - destruct (ATOMIC_SET_WRITE_sequential_reading fuel this Z.land
                (w0 <- AtomicEnumSet.ToIntegral set ;; ret (Z.lnot w0)) (Z.lnot w') s w Hs Hm)
      as (s' & Hrun & Hs' & Hm').
    { intros s1 Hs1 Hm1.
      destruct (ToIntegral_reads set s w' Hset s1 Hs1 Hm1) as (s2 & Hr & Hs2 & Hm2).
      exists s2. rewrite (bind_Ok _ _ _ _ _ Hr). repeat split; assumption. }
    unfold AtomicEnumSet.Remove_set. rewrite (bind_Ok _ _ _ _ _ Hrun).
    erewrite Contains_sequential;
      [| exact Hs' | rewrite Hm'; apply lookup_insert_eq
       | apply in_range_land_lnot; assumption | exact He].
    cbn [result_value]. rewrite Z.land_spec, Z.lnot_spec by lia. reflexivity.
  - destruct (ATOMIC_SET_WRITE_sequential_reading fuel this Z.land
                (AtomicEnumSet.ToIntegral set) w' s w Hs Hm (ToIntegral_reads set s w' Hset))
      as (s' & Hrun & Hs' & Hm').
    unfold AtomicEnumSet.Intersect. rewrite (bind_Ok _ _ _ _ _ Hrun).
    erewrite Contains_sequential;
      [| exact Hs' | rewrite Hm'; apply lookup_insert_eq
       | apply in_range_land; assumption | exact He].
    cbn [result_value]. rewrite Z.land_spec. reflexivity.
Qed.

Lemma AtomicEnumSet_set_updates_scenario :
  result_value ((AtomicEnumSet.Remove_set 1 7 8 ;; AtomicEnumSet.Contains 7 2)
                  (sequential {[7 := 5; 8 := 4]})) = Some false.
Proof.
  destruct (AtomicEnumSet_set_updates_are_union_difference_intersection 0 7 8
              (sequential {[7 := 5; 8 := 4]}) 5 4 2) as (_ & _ & _ & Hrem & _).
  - reflexivity.
  - reflexivity.
  - reflexivity.
  - in_range_by_computation.
  - in_range_by_computation.
  - lia.
  - exact Hrem.
Defined.

(** X11.  Sequentially, for two sets with words [w] and [w']:
    [ContainsAnyOf] is true exactly when some element is in both,
    [operator==] is true exactly when the sets have the same elements
    ([operator!=] is its negation), and the set built by [operator|]
    contains an element when one of the two does. *)
Theorem AtomicEnumSet_queries_compare_elements
    (this set result : Address) (s : State) (w w' e : Z) :
  sched s = [] ->
  mem s !! AtomicEnumSet.bits_ this = Some w ->
  mem s !! AtomicEnumSet.bits_ set = Some w' ->
  in_range kAtomicWord w -> in_range kAtomicWord w' ->
  0 <= e < 64 ->
  exists any same,
    result_value (AtomicEnumSet.ContainsAnyOf this set s) = Some any /\
    (any = true <->
       exists x, 0 <= x < 64 /\ Z.testbit w x = true /\ Z.testbit w' x = true) /\
    result_value (AtomicEnumSet.operator_eq this set s) = Some same /\
    result_value (AtomicEnumSet.operator_ne this set s) = Some (negb same) /\
    (same = true <-> forall x, 0 <= x < 64 -> Z.testbit w x = Z.testbit w' x) /\
    result_value ((AtomicEnumSet.operator_or this set result ;;
                   AtomicEnumSet.Contains result e) s)
      = Some (Z.testbit w e || Z.testbit w' e).
Proof.
  intros Hs Hm Hset Hw Hw' He.
  pose proof (ToIntegral_sequential this s w Hs Hm) as Hload.
  assert (Hload' : AtomicEnumSet.ToIntegral set
                     (log (EvLoad Acquire (AtomicEnumSet.bits_ this) w) s) =
                   Ok w' (log (EvLoad Acquire (AtomicEnumSet.bits_ set) w')
                            (log (EvLoad Acquire (AtomicEnumSet.bits_ this) w) s)))
    by (apply ToIntegral_sequential; [exact Hs | exact Hset]).
  exists (negb (Z.land w w' =? 0)), (w =? w').
  split; [| split; [| split; [| split; [| split]]]].
  - unfold AtomicEnumSet.ContainsAnyOf.
    rewrite (bind_Ok _ _ _ _ _ Hload), (bind_Ok _ _ _ _ _ Hload'). reflexivity.
  - rewrite (AtomicWord_nonzero_bit _ (in_range_land _ _ _ Hw Hw')), negb_involutive.
    rewrite existsb_exists. split.
    + intros (x & Hin & Hbit). apply indices_In in Hin.
      rewrite Z.land_spec in Hbit. apply andb_true_iff in Hbit.
      exists x. split; [lia | exact Hbit].
    + intros (x & Hx & Hb1 & Hb2). exists x. split; [apply In_indices; lia |].
      rewrite Z.land_spec, Hb1, Hb2. reflexivity.
  - unfold AtomicEnumSet.operator_eq.
    rewrite (bind_Ok _ _ _ _ _ Hload), (bind_Ok _ _ _ _ _ Hload'). reflexivity.
  - unfold AtomicEnumSet.operator_ne.
    rewrite (bind_Ok _ _ _ _ _ Hload), (bind_Ok _ _ _ _ _ Hload'). reflexivity.
  - rewrite Z.eqb_eq. split.
    + intros -> x _. reflexivity.
    + apply AtomicWord_eq_of_bits; assumption.
  - erewrite bind_Ok.
    2:{ unfold AtomicEnumSet.operator_or.
        rewrite (bind_Ok _ _ _ _ _ Hload), (bind_Ok _ _ _ _ _ Hload').
        unfold AtomicEnumSet.ctor, init. reflexivity. }
    erewrite Contains_sequential;
      [| exact Hs | cbn [mem]; apply lookup_insert_eq
       | apply in_range_lor; assumption | exact He].
    cbn [result_value]. rewrite Z.lor_spec. reflexivity.
Qed.

Lemma AtomicEnumSet_queries_scenario :
  exists any,
    result_value (AtomicEnumSet.ContainsAnyOf 7 8 (sequential {[7 := 5; 8 := 2]})) = Some any /\
    (any = true <->
       exists x, 0 <= x < 64 /\ Z.testbit 5 x = true /\ Z.testbit 2 x = true).
Proof.
  destruct (AtomicEnumSet_queries_compare_elements 7 8 9
              (sequential {[7 := 5; 8 := 2]}) 5 2 0)
    as (any & same & Hany & Hiff & _).
  - reflexivity.
  - reflexivity.
  - reflexivity.
  - in_range_by_computation.
  - in_range_by_computation.
  - lia.
  - exists any. split; [exact Hany | exact Hiff].
Defined.

(** ** Retry loops under interference *)

(** A scheduling point keeps the word of a location or replaces it by the
    value another thread stores there, and consumes one step of the
    schedule. *)
Lemma preempt_at ptr s w :
  mem s !! ptr = Some w ->
  exists s1 w1,
    preempt s = Ok tt s1 /\
    mem s1 !! ptr = Some w1 /\
    sched s1 = tail (sched s) /\
    (w1 = w \/ head (sched s) = Some (OtherStore ptr w1)).
Proof.
  intros Hm. unfold preempt. destruct (sched s) as [| [| p x] rest] eqn:Hsched.
  - exists s, w. rewrite Hsched. repeat split; [assumption | left; reflexivity].
  - eexists. exists w. repeat split; [assumption | left; reflexivity].
  - destruct (decide (p = ptr)) as [-> | Hne].
    + eexists. exists x. repeat split.
      * cbn [mem]. rewrite lookup_alter_eq, Hm. reflexivity.
      * right. reflexivity.
    + eexists. exists w. repeat split.
      * cbn [mem]. rewrite lookup_alter_ne by exact Hne. exact Hm.
      * left. reflexivity.
Qed.

Lemma In_tail {A} (x : A) (l : list A) : In x (tail l) -> In x l.
Proof. destruct l; simpl; [intros [] | intros H; right; exact H]. Qed.

Lemma In_head {A} (x : A) (l : list A) : head l = Some x -> In x l.
Proof. destruct l; simpl; [discriminate | intros [= ->]; left; reflexivity]. Qed.

Lemma length_tail_le {A} (l : list A) : (length (tail l) <= length l)%nat.
Proof. destruct l; simpl; lia. Qed.

Lemma Acquire_Load_at ptr s w :
  mem s !! ptr = Some w ->
  exists s1 w1,
    Acquire_Load ptr s = Ok w1 s1 /\
    mem s1 !! ptr = Some w1 /\
    sched s1 = tail (sched s) /\
    (w1 = w \/ head (sched s) = Some (OtherStore ptr w1)).
Proof.
  intros Hm. destruct (preempt_at ptr s w Hm) as (s1 & w1 & Hp & Hm1 & Hsch & Hw1).
  exists (log (EvLoad Acquire ptr w1) s1), w1. split; [| repeat split; assumption].
  unfold Acquire_Load. rewrite (bind_Ok _ _ _ _ _ Hp). unfold load. rewrite Hm1. reflexivity.
Qed.

Lemma Release_CompareAndSwap_at ptr old_value new_value s w :
  mem s !! ptr = Some w ->
  exists s1 w1,
    Release_CompareAndSwap ptr old_value new_value s = Ok w1 s1 /\
    mem s1 !! ptr = Some (if w1 =? old_value then new_value else w1) /\
    sched s1 = tail (sched s) /\
    (w1 = w \/ head (sched s) = Some (OtherStore ptr w1)).
Proof.
  intros Hm. destruct (preempt_at ptr s w Hm) as (s1 & w1 & Hp & Hm1 & Hsch & Hw1).
  eexists. exists w1. split; [| split; [| split]].
  - unfold Release_CompareAndSwap. rewrite (bind_Ok _ _ _ _ _ Hp).
    unfold compare_and_swap. rewrite Hm1. reflexivity.
  - cbn [mem]. destruct (w1 =? old_value); [apply lookup_insert_eq | exact Hm1].
  - exact Hsch.
  - exact Hw1.
Qed.

(** Under any schedule shorter than the budget, [ATOMIC_SET_WRITE] with a
    constant operand returns, and the word it leaves is [OP] applied to a
    word that was current: the initial one or one another thread stored. *)
Lemma ATOMIC_SET_WRITE_under_interference this OP new_val :
  forall fuel s w,
    mem s !! AtomicEnumSet.bits_ this = Some w ->
    (length (sched s) < fuel)%nat ->
    exists s' w0,
      AtomicEnumSet.ATOMIC_SET_WRITE fuel this OP (ret new_val) s = Ok tt s' /\
      mem s' !! AtomicEnumSet.bits_ this = Some (OP w0 new_val) /\
      (w0 = w \/ In (OtherStore (AtomicEnumSet.bits_ this) w0) (sched s)) /\
      (length (sched s') <= length (sched s))%nat.
Proof.
  induction fuel as [| fuel IH]; intros s w Hm Hlen; [lia |].
  cbn [AtomicEnumSet.ATOMIC_SET_WRITE].
  destruct (Acquire_Load_at _ s w Hm) as (s1 & w1 & Hload & Hm1 & Hsch1 & Hw1).
  rewrite (bind_Ok _ _ _ _ _ Hload). unfold ret at 1. unfold bind at 1.
  destruct (Release_CompareAndSwap_at _ w1 (OP w1 new_val) s1 w1 Hm1)
    as (s2 & w2 & Hcas & Hm2 & Hsch2 & Hw2).
  rewrite (bind_Ok _ _ _ _ _ Hcas).
  assert (Hfrom1 : w1 = w \/ In (OtherStore (AtomicEnumSet.bits_ this) w1) (sched s)).
  { destruct Hw1 as [-> | Hh]; [left; reflexivity | right; apply In_head; exact Hh]. }
  pose proof (length_tail_le (sched s)) as Hle1. rewrite <- Hsch1 in Hle1.
  pose proof (length_tail_le (sched s1)) as Hle2. rewrite <- Hsch2 in Hle2.
  destruct (Z.eqb_spec w2 w1) as [-> | Hne].
  - simpl negb. cbv iota. exists s2, w1. split; [reflexivity |].
    split; [exact Hm2 |]. split; [exact Hfrom1 | lia].
  - simpl negb. cbv iota.
    destruct Hw2 as [-> | Hh2]; [contradiction |].
    assert (Hshorter : (length (sched s2) < length (sched s1))%nat).
    { rewrite Hsch2. destruct (sched s1); [discriminate Hh2 | simpl; lia]. }
    destruct (IH s2 w2 Hm2 ltac:(lia)) as (s' & w0 & Hrun & Hm' & Hw0 & Hlen').
    exists s', w0. split; [exact Hrun |]. split; [exact Hm' |]. split; [| lia].
    right. destruct Hw0 as [-> | Hin].
    + apply In_tail. rewrite <- Hsch1. apply In_head. exact Hh2.
    + rewrite Hsch2 in Hin. apply In_tail in Hin.
      rewrite Hsch1 in Hin. apply In_tail in Hin. exact Hin.
Qed.

(** X12.  Whatever other threads store in between, as long as the budget
    exceeds the length of their schedule, [Add(e)] and [Remove(e)] return,
    and the word they leave is an update of a word that was current (the
    initial word or one stored by another thread): element [e] is in it
    after [Add], out of it after [Remove], and every other element is as in
    that current word.  No interfering store is overwritten blindly. *)
Theorem AtomicEnumSet_Add_Remove_lose_no_update
    (fuel : nat) (this : Address) (s : State) (w e : Z) :
  mem s !! AtomicEnumSet.bits_ this = Some w ->
  (length (sched s) < fuel)%nat ->
  0 <= e < 64 ->
  (exists s' w0 w',
     AtomicEnumSet.Add fuel this e s = Ok tt s' /\
     mem s' !! AtomicEnumSet.bits_ this = Some w' /\
     (w0 = w \/ In (OtherStore (AtomicEnumSet.bits_ this) w0) (sched s)) /\
     Z.testbit w' e = true /\
     forall e', 0 <= e' < 64 -> e' <> e -> Z.testbit w' e' = Z.testbit w0 e') /\
  (exists s' w0 w',
     AtomicEnumSet.Remove fuel this e s = Ok tt s' /\
     mem s' !! AtomicEnumSet.bits_ this = Some w' /\
     (w0 = w \/ In (OtherStore (AtomicEnumSet.bits_ this) w0) (sched s)) /\
     Z.testbit w' e = false /\
     forall e', 0 <= e' < 64 -> e' <> e -> Z.testbit w' e' = Z.testbit w0 e').
Proof.
  intros Hm Hlen He. split.
  - destruct (ATOMIC_SET_WRITE_under_interference this Z.lor (AtomicEnumSet.Mask e)
                fuel s w Hm Hlen) as (s' & w0 & Hrun & Hm' & Hw0 & _).
    exists s', w0, (Z.lor w0 (AtomicEnumSet.Mask e)).
    split; [exact Hrun |]. split; [exact Hm' |]. split; [exact Hw0 |]. split.
    + rewrite testbit_Add, Z.eqb_refl by lia. apply orb_true_r.
    + intros e' He' Hne. rewrite testbit_Add by lia.
      destruct (Z.eqb_spec e e'); [congruence | apply orb_false_r].
  - destruct (ATOMIC_SET_WRITE_under_interference this Z.land
                (Z.lnot (AtomicEnumSet.Mask e)) fuel s w Hm Hlen)
      as (s' & w0 & Hrun & Hm' & Hw0 & _).
    exists s', w0, (Z.land w0 (Z.lnot (AtomicEnumSet.Mask e))).
    split; [exact Hrun |]. split; [exact Hm' |]. split; [exact Hw0 |]. split.
    + rewrite testbit_Remove, Z.eqb_refl by lia. apply andb_false_r.
    + intros e' He' Hne. rewrite testbit_Remove by lia.
      destruct (Z.eqb_spec e e'); [congruence | apply andb_true_r].
Qed.

(** Another thread stores 9 between the load and the compare-and-swap of
    [Add(1)]: the call retries and still returns. *)
Lemma AtomicEnumSet_Add_under_interference_scenario :
  exists s' w',
    AtomicEnumSet.Add 3 7 1 {| mem := {[7 := 5]}; trace := [];
                               sched := [Quiet; OtherStore 7 9] |} = Ok tt s' /\
    mem s' !! 7 = Some w' /\ Z.testbit w' 1 = true.
Proof.
  destruct (AtomicEnumSet_Add_Remove_lose_no_update 3 7
              {| mem := {[7 := 5]}; trace := []; sched := [Quiet; OtherStore 7 9] |} 5 1)
    as ((s' & w0 & w' & Hrun & Hm' & _ & Hbit & _) & _).
  - reflexivity.
  - simpl. lia.
  - lia.
  - exists s', w'. split; [exact Hrun |]. split; [exact Hm' | exact Hbit].
Defined.

Example AtomicEnumSet_Add_after_interfering_store :
  AtomicEnumSet.Add 3 7 1 {| mem := {[7 := 5]}; trace := [];
                             sched := [Quiet; OtherStore 7 9] |} =
    Ok tt {| mem := {[7 := 11]};
             trace := [EvLoad Acquire 7 5; EvCompareAndSwap Release 7 5 7 9;
                       EvLoad Acquire 7 9; EvCompareAndSwap Release 7 9 11 9];
             sched := [] |}.
Proof. vm_compute. reflexivity. Qed.

(** The loop of [SetBits] under interference by threads that store values
    of the cell's type. *)
Lemma AtomicValue_SetBits_loop_under_interference T this bits mask :
  in_range T bits -> in_range T mask ->
  forall fuel s v,
    in_range T v ->
    mem s !! this = Some (cast_helper.to_storage_type T v) ->
    (forall x, In (OtherStore this x) (sched s) ->
       exists u, in_range T u /\ x = cast_helper.to_storage_type T u) ->
    (length (sched s) < fuel)%nat ->
    exists s' v0,
      AtomicValue.SetBits_loop T fuel this bits mask s = Ok tt s' /\
      mem s' !! this =
        Some (cast_helper.to_storage_type T (Z.lor (Z.land v0 (Z.lnot mask)) bits)) /\
      in_range T v0 /\
      (v0 = v \/ In (OtherStore this (cast_helper.to_storage_type T v0)) (sched s)).
Proof.
  intros Hb Hmask.
  induction fuel as [| fuel IH]; intros s v Hv Hm Hcanon Hlen; [lia |].
  cbn [AtomicValue.SetBits_loop].
  unfold AtomicValue.Value, AtomicValue.TrySetValue, AtomicValue.value_.
  destruct (Acquire_Load_at this s _ Hm) as (s1 & w1 & Hload & Hm1 & Hsch1 & Hw1).
  assert (Hv1 : exists v1, in_range T v1 /\ w1 = cast_helper.to_storage_type T v1 /\
                  (v1 = v \/ In (OtherStore this (cast_helper.to_storage_type T v1)) (sched s))).
  { destruct Hw1 as [-> | Hh].
    - exists v. split; [assumption |]. split; [reflexivity | left; reflexivity].
    - apply In_head in Hh. destruct (Hcanon _ Hh) as (u & Hu & ->).
      exists u. split; [assumption |]. split; [reflexivity | right; exact Hh]. }
  destruct Hv1 as (v1 & Hr1 & -> & Hfrom1).
  erewrite (bind_Ok (bind _ _)); [| rewrite (bind_Ok _ _ _ _ _ Hload); reflexivity].
  rewrite to_storage_roundtrip by assumption.
  assert (Hnew : in_range T (Z.lor (Z.land v1 (Z.lnot mask)) bits))
    by (apply in_range_set_bits; assumption).
  rewrite (static_cast_id T _ Hnew).
  destruct (Release_CompareAndSwap_at this (cast_helper.to_storage_type T v1)
              (cast_helper.to_storage_type T (Z.lor (Z.land v1 (Z.lnot mask)) bits))
              s1 _ Hm1) as (s2 & w2 & Hcas & Hm2 & Hsch2 & Hw2).
  erewrite (bind_Ok (bind _ _)); [| rewrite (bind_Ok _ _ _ _ _ Hcas); reflexivity].
  pose proof (length_tail_le (sched s)) as Hle1. rewrite <- Hsch1 in Hle1.
  pose proof (length_tail_le (sched s1)) as Hle2. rewrite <- Hsch2 in Hle2.
  destruct (Z.eqb_spec w2 (cast_helper.to_storage_type T v1)) as [-> | Hne].
  - exists s2, v1. split; [reflexivity |]. split; [exact Hm2 |]. split; assumption.
  - destruct Hw2 as [-> | Hh2]; [contradiction |].
    assert (Hin2 : In (OtherStore this w2) (sched s)).
    { apply In_tail. rewrite <- Hsch1. apply In_head. exact Hh2. }
    destruct (Hcanon _ Hin2) as (v2 & Hr2 & ->).
    assert (Hshorter : (length (sched s2) < length (sched s1))%nat).
    { rewrite Hsch2. destruct (sched s1); [discriminate Hh2 | simpl; lia]. }
    destruct (IH s2 v2 Hr2 Hm2) as (s' & v0 & Hrun & Hm' & Hr0 & Hfrom0).
    + intros x Hx. apply Hcanon. rewrite Hsch2 in Hx. apply In_tail in Hx.
      rewrite Hsch1 in Hx. apply In_tail in Hx. exact Hx.
    + lia.
    + exists s', v0. split; [exact Hrun |]. split; [exact Hm' |]. split; [exact Hr0 |].
      right. destruct Hfrom0 as [-> | Hx]; [exact Hin2 |].
      rewrite Hsch2 in Hx. apply In_tail in Hx.
      rewrite Hsch1 in Hx. apply In_tail in Hx. exact Hx.
Qed.

(** X13.  When the other threads store values of the cell's type, however
    they interleave, and the budget exceeds the length of their schedule,
    [SetBits(bits, mask)] with [bits & ~mask == 0] returns, and the cell then
    holds [(v0 & ~mask) | bits] for a value [v0] that was current: the
    initial value or one stored by another thread. *)
Theorem AtomicValue_SetBits_loses_no_update
    (T : IntType) (fuel : nat) (this : Address) (s : State) (v bits mask : Z) :
  in_range T v -> in_range T bits -> in_range T mask ->
  Z.land bits (Z.lnot mask) = 0 ->
  mem s !! this = Some (cast_helper.to_storage_type T v) ->
  (forall x, In (OtherStore this x) (sched s) ->
     exists u, in_range T u /\ x = cast_helper.to_storage_type T u) ->
  (length (sched s) < fuel)%nat ->
  exists s' v0,
    AtomicValue.SetBits T fuel this bits mask s = Ok tt s' /\
    mem s' !! this =
      Some (cast_helper.to_storage_type T (Z.lor (Z.land v0 (Z.lnot mask)) bits)) /\
    in_range T v0 /\
    (v0 = v \/ In (OtherStore this (cast_helper.to_storage_type T v0)) (sched s)) /\
    (forall i, 0 <= i ->
       Z.testbit (Z.lor (Z.land v0 (Z.lnot mask)) bits) i =
         if Z.testbit mask i then Z.testbit bits i else Z.testbit v0 i).
Proof.
  intros Hv Hb Hmask Hd Hm Hcanon Hlen.
  destruct (AtomicValue_SetBits_loop_under_interference T this bits mask Hb Hmask
              fuel s v Hv Hm Hcanon Hlen) as (s' & v0 & Hrun & Hm' & Hr0 & Hfrom).
  exists s', v0. split; [| split; [exact Hm' | split; [exact Hr0 | split; [exact Hfrom |]]]].
  - unfold AtomicValue.SetBits, DCHECK_EQ, DCHECK.
    rewrite Hd, static_cast_zero. exact Hrun.
  - intros i Hi. apply testbit_set_bits; assumption.
Qed.

Lemma AtomicValue_SetBits_under_interference_scenario :
  exists s' v0,
    AtomicValue.SetBits UInt32 3 100 4 12
      {| mem := {[100 := 1]}; trace := []; sched := [Quiet; OtherStore 100 9] |} = Ok tt s' /\
    mem s' !! 100 =
      Some (cast_helper.to_storage_type UInt32 (Z.lor (Z.land v0 (Z.lnot 12)) 4)) /\
    (v0 = 1 \/ In (OtherStore 100 (cast_helper.to_storage_type UInt32 v0))
                  [Quiet; OtherStore 100 9]).
Proof.
  destruct (AtomicValue_SetBits_loses_no_update UInt32 3 100
              {| mem := {[100 := 1]}; trace := []; sched := [Quiet; OtherStore 100 9] |}
              1 4 12) as (s' & v0 & Hrun & Hm' & _ & Hfrom & _).
  - in_range_by_computation.
  - in_range_by_computation.
  - in_range_by_computation.
  - reflexivity.
  - reflexivity.
  - intros x [Hq | [Hx | []]]; [discriminate Hq |].
    injection Hx as <-. exists 9. split; [in_range_by_computation | reflexivity].
  - simpl. lia.
  - exists s', v0. split; [exact Hrun |]. split; [exact Hm' | exact Hfrom].
Defined.

(** * Further properties of the dispatch table and the visitors *)

(** X14.  [CopyFrom] writes the destination table and nothing else: every
    word outside the destination keeps its value (so a source table that
    does not overlap is untouched), copying a table onto itself leaves memory
    as it was, and a second [CopyFrom] from the same source changes nothing
    more. *)
Theorem CopyFrom_writes_only_the_destination
    (this other : Address) (s : State) (src : Z -> Z) :
  sched s = [] ->
  VisitorDispatchTable.allocated this (mem s) ->
  (forall i, 0 <= i < VisitorId_value kVisitorIdCount ->
             mem s !! (other + i) = Some (src i)) ->
  VisitorDispatchTable.same_or_apart this other ->
  exists s' s'',
    VisitorDispatchTable.CopyFrom this other s = Ok tt s' /\
    (forall a, ~ (this <= a < this + VisitorId_value kVisitorIdCount) ->
               mem s' !! a = mem s !! a) /\
    (this = other -> mem s' = mem s) /\
    VisitorDispatchTable.CopyFrom this other s' = Ok tt s'' /\
    mem s'' = mem s'.
Proof.
  intros Hs Hdst Hsrc Hap.
  assert (Hcount : VisitorId_value kVisitorIdCount = 35) by reflexivity.
  destruct (CopyFrom_loop_run this other src Hap
              (Z.to_nat (VisitorId_value kVisitorIdCount)) 0 s Hs)
    as (s' & Hrun & Hs' & _ & Hmem); try lia.
  { intros i Hi. apply Hsrc. lia. }
  { intros i Hi. apply Hdst. lia. }
  assert (Hin : forall i, 0 <= i < VisitorId_value kVisitorIdCount ->
                  mem s' !! (this + i) = Some (src i)).
  { intros i Hi. rewrite Hmem.
    destruct (Z.leb_spec (this + 0) (this + i)),
      (Z.ltb_spec (this + i)
         (this + 0 + Z.of_nat (Z.to_nat (VisitorId_value kVisitorIdCount))));
      simpl; try lia.
    f_equal. f_equal. lia. }
  assert (Hout : forall a, ~ (this <= a < this + VisitorId_value kVisitorIdCount) ->
                   mem s' !! a = mem s !! a).
  { intros a Ha. rewrite Hmem.
    destruct (Z.leb_spec (this + 0) a),
      (Z.ltb_spec a (this + 0 + Z.of_nat (Z.to_nat (VisitorId_value kVisitorIdCount))));
      simpl; try reflexivity; lia. }
  assert (Hsrc' : forall i, 0 <= i < VisitorId_value kVisitorIdCount ->
                    mem s' !! (other + i) = Some (src i)).
  { intros i Hi. destruct Hap as [-> | Hapart]; [apply Hin; exact Hi |].
    rewrite Hout by lia. apply Hsrc. exact Hi. }
  destruct (CopyFrom_loop_run this other src Hap
              (Z.to_nat (VisitorId_value kVisitorIdCount)) 0 s' Hs')
    as (s'' & Hrun2 & _ & _ & Hmem2); try lia.
  { intros i Hi. apply Hsrc'. lia. }
  { intros i Hi. rewrite Hin by lia. eauto. }
  exists s', s''. split; [exact Hrun |]. split; [exact Hout |].
  split; [| split; [exact Hrun2 |]].
  - intros ->. apply map_eq. intros a.
    destruct (decide (other <= a < other + VisitorId_value kVisitorIdCount)) as [Ha | Ha].
    + replace a with (other + (a - other)) by lia.
      rewrite Hin, Hsrc by lia. reflexivity.
    + apply Hout. exact Ha.
  - apply map_eq. intros a. rewrite Hmem2.
    destruct (Z.leb_spec (this + 0) a),
      (Z.ltb_spec a (this + 0 + Z.of_nat (Z.to_nat (VisitorId_value kVisitorIdCount))));
      simpl; try reflexivity.
    replace a with (this + (a - this)) at 2 by lia.
    rewrite Hin by lia. reflexivity.
Qed.

Lemma CopyFrom_frame_scenario :
  exists s',
    VisitorDispatchTable.CopyFrom 1000 2000
      (sequential (list_to_map (map (fun i => (1000 + i, 0)) (indices 35 0) ++
                                map (fun i => (2000 + i, 4096 + i)) (indices 35 0)))) = Ok tt s' /\
    mem s' !! 2004 = Some 4100.
Proof.
  destruct (CopyFrom_writes_only_the_destination 1000 2000
              (sequential (list_to_map (map (fun i => (1000 + i, 0)) (indices 35 0) ++
                                        map (fun i => (2000 + i, 4096 + i)) (indices 35 0))))
              (fun i => 4096 + i))
    as (s' & s'' & Hrun & Hframe & _).
  - reflexivity.
  - unfold VisitorDispatchTable.allocated. every_slot_by_computation.
  - every_slot_by_computation.
  - right. left. vm_compute. discriminate.
  - exists s'. split; [exact Hrun |].
    rewrite Hframe; [reflexivity |].
    change (VisitorId_value kVisitorIdCount) with 35. lia.
Defined.

(** X15.  Dispatch: once [Register(id, callback)] has stored the address of
    a visit function in the table, [IterateBody] on an object whose map
    carries [id] runs that function on the map and the object, and returns
    what it returns. *)
Theorem IterateBody_runs_the_registered_visitor
    (text : gmap Z (Z -> Z -> M Z)) (visitor_id : MapPtr -> VisitorId)
    (table_ : Address) (s : State) (map : MapPtr) (obj : HeapObjectPtr)
    (callback : Callback) (f : Z -> Z -> M Z) :
  VisitorDispatchTable.allocated table_ (mem s) ->
  visitor_id map <> kVisitorIdCount ->
  in_range UInt64 callback ->
  text !! callback = Some f ->
  exists s1 s2,
    VisitorDispatchTable.Register table_ (visitor_id map) callback s = Ok tt s1 /\
    VisitorDispatchTable.GetVisitor visitor_id table_ map s1 = Ok callback s2 /\
    mem s2 = mem s1 /\
    StaticNewSpaceVisitor.IterateBody text visitor_id table_ map obj s1 = f map obj s2.
Proof.
  intros Ha Hid Hcb Htext.
  pose proof (Register_run table_ (visitor_id map) callback s Hid Ha) as Hreg.
  eexists. eexists. split; [exact Hreg |].
  assert (Hget : VisitorDispatchTable.GetVisitorById table_ (visitor_id map)
                   {| mem := <[table_ + VisitorId_value (visitor_id map) :=
                                 reinterpret_cast_to_word callback]> (mem s);
                      trace := trace s ++
                        [EvStore NonAtomic (table_ + VisitorId_value (visitor_id map))
                           (reinterpret_cast_to_word callback)];
                      sched := sched s |} =
                 Ok callback
                    (log (EvLoad NonAtomic (table_ + VisitorId_value (visitor_id map))
                            (reinterpret_cast_to_word callback))
                       {| mem := <[table_ + VisitorId_value (visitor_id map) :=
                                     reinterpret_cast_to_word callback]> (mem s);
                          trace := trace s ++
                            [EvStore NonAtomic (table_ + VisitorId_value (visitor_id map))
                               (reinterpret_cast_to_word callback)];
                          sched := sched s |})).
  { erewrite GetVisitorById_run; [| exact Hid | cbn [mem]; apply lookup_insert_eq].
    rewrite pointer_roundtrip by assumption. reflexivity. }
  split; [exact Hget |]. split; [reflexivity |].
  unfold StaticNewSpaceVisitor.IterateBody, VisitorDispatchTable.GetVisitor.
  rewrite (bind_Ok _ _ _ _ _ Hget). unfold call. rewrite Htext. reflexivity.
Qed.

Lemma IterateBody_dispatch_scenario :
  result_value
    ((VisitorDispatchTable.Register 1000 kVisitByteArray 4096 ;;
      StaticNewSpaceVisitor.IterateBody {[4096 := fun map object => ret 24]}
        (fun _ => kVisitByteArray) 1000 1 2)
       (sequential (list_to_map (map (fun i => (1000 + i, 0)) (indices 35 0))))) = Some 24.
Proof.
  destruct (IterateBody_runs_the_registered_visitor
              {[4096 := fun map object => ret 24]} (fun _ => kVisitByteArray) 1000
              (sequential (list_to_map (map (fun i => (1000 + i, 0)) (indices 35 0))))
              1 2 4096 (fun map object => ret 24))
    as (s1 & s2 & Hreg & _ & _ & Hrun).
  - unfold VisitorDispatchTable.allocated. every_slot_by_computation.
  - discriminate.
  - in_range_by_computation.
  - reflexivity.
  - rewrite (bind_Ok _ _ _ _ _ Hreg), Hrun. reflexivity.
Defined.

Lemma VisitPointers_loop_fold {V} (VisitPointer : Z -> Z -> Z -> V -> V) heap object n :
  forall p v,
    StaticNewSpaceVisitor.VisitPointers_loop VisitPointer heap object n p v =
    fold_left (fun v' q => VisitPointer heap object q v') (indices n p) v.
Proof.
  induction n as [| n IH]; intros p v; [reflexivity |].
  simpl. apply IH.
Qed.

Lemma indices_app n m : forall lo,
  indices (n + m) lo = indices n lo ++ indices m (lo + Z.of_nat n).
Proof.
  induction n as [| n IH]; intros lo.
  - simpl. f_equal. lia.
  - cbn [Nat.add indices app]. rewrite IH. do 3 f_equal. lia.
Qed.

Lemma NoDup_indices n : forall lo, List.NoDup (indices n lo).
Proof.
  induction n as [| n IH]; intros lo; [constructor |].
  simpl. constructor; [| apply IH].
  intros Hin. apply indices_In in Hin. lia.
Qed.

Lemma fold_left_record {A} (l : list A) : forall acc,
  fold_left (fun v q => v ++ [q]) l acc = acc ++ l.
Proof.
  induction l as [| x l IH]; intros acc; simpl.
  - rewrite app_nil_r. reflexivity.
  - rewrite IH, <- app_assoc. reflexivity.
Qed.

(** X16.  [VisitPointers(heap, object, start, end)] calls [VisitPointer]
    on every slot from [start] up to but not including [end], once each, in
    increasing order, and on no other slot; with [end <= start] it calls
    nothing.  Visiting [start .. end] is visiting [start .. mid] and then
    [mid .. end]. *)
Theorem VisitPointers_visits_each_slot_of_the_range_once
    {V : Type} (VisitPointer : Z -> Z -> Z -> V -> V)
    (heap : Address) (object : HeapObjectPtr) (start end_ : Address) (v : V) :
  let visited :=
    StaticNewSpaceVisitor.VisitPointers (fun _ _ p l => l ++ [p]) heap object start end_ [] in
  (forall p, In p visited <-> start <= p < end_) /\
  List.NoDup visited /\
  (forall i j p q, visited !! i = Some p -> visited !! j = Some q ->
                   (i < j)%nat -> p < q) /\
  StaticNewSpaceVisitor.VisitPointers VisitPointer heap object start end_ v =
    fold_left (fun v' p => VisitPointer heap object p v') visited v /\
  (end_ <= start ->
     StaticNewSpaceVisitor.VisitPointers VisitPointer heap object start end_ v = v) /\
  (forall mid, start <= mid <= end_ ->
     StaticNewSpaceVisitor.VisitPointers VisitPointer heap object start end_ v =
     StaticNewSpaceVisitor.VisitPointers VisitPointer heap object mid end_
       (StaticNewSpaceVisitor.VisitPointers VisitPointer heap object start mid v)).
Proof.
  intros visited.
  assert (Hvisited : visited = indices (Z.to_nat (end_ - start)) start).
  { unfold visited, StaticNewSpaceVisitor.VisitPointers.
    rewrite VisitPointers_loop_fold, fold_left_record. reflexivity. }
  assert (Hnth : forall n lo i p, indices n lo !! i = Some p -> p = lo + Z.of_nat i).
  { induction n as [| n IH]; intros lo i p Hp; [destruct i; discriminate Hp |].
    destruct i as [| i]; simpl in Hp.
    - injection Hp as <-. lia.
    - apply IH in Hp. lia. }
  split; [| split; [| split; [| split; [| split]]]].
  - intros p. rewrite Hvisited. split.
    + intros Hin. apply indices_In in Hin. lia.
    + intros Hp. apply In_indices. lia.
  - rewrite Hvisited. apply NoDup_indices.
  - intros i j p q Hi Hj Hlt. rewrite Hvisited in Hi, Hj.
    apply Hnth in Hi. apply Hnth in Hj. lia.
  - rewrite Hvisited. unfold StaticNewSpaceVisitor.VisitPointers.
    apply VisitPointers_loop_fold.
  - intros Hle. unfold StaticNewSpaceVisitor.VisitPointers.
    replace (Z.to_nat (end_ - start)) with O by lia. reflexivity.
  - intros mid Hmid. unfold StaticNewSpaceVisitor.VisitPointers.
    rewrite !VisitPointers_loop_fold.
    replace (Z.to_nat (end_ - start))
      with (Z.to_nat (mid - start) + Z.to_nat (end_ - mid))%nat by lia.
    rewrite indices_app, fold_left_app.
    replace (start + Z.of_nat (Z.to_nat (mid - start))) with mid by lia.
    reflexivity.
Qed.


(** ** [AsAtomic32::SetBits] under interference *)

Lemma Relaxed_Load_at ptr s w :
  mem s !! ptr = Some w ->
  exists s1 w1,
    Relaxed_Load ptr s = Ok w1 s1 /\
    mem s1 !! ptr = Some w1 /\
    sched s1 = tail (sched s) /\
    (w1 = w \/ head (sched s) = Some (OtherStore ptr w1)).
Proof.
  intros Hm. destruct (preempt_at ptr s w Hm) as (s1 & w1 & Hp & Hm1 & Hsch & Hw1).
  exists (log (EvLoad Relaxed ptr w1) s1), w1. split; [| repeat split; assumption].
  unfold Relaxed_Load. rewrite (bind_Ok _ _ _ _ _ Hp). unfold load. rewrite Hm1. reflexivity.
Qed.

Lemma AsAtomic32_SetBits_loop_under_interference T addr bits mask :
  width T <= width kAtomic32 ->
  in_range T bits -> in_range T mask ->
  Z.land bits (Z.lnot mask) = 0 ->
  forall fuel s v,
    in_range T v ->
    mem s !! addr = Some (AsAtomic32.to_storage_type v) ->
    (forall x, In (OtherStore addr x) (sched s) ->
       exists u, in_range T u /\ x = AsAtomic32.to_storage_type u) ->
    (length (sched s) < fuel)%nat ->
    exists s' v0,
      AsAtomic32.SetBits_loop T fuel addr bits mask s =
        Ok (negb (Z.land v0 mask =? bits)) s' /\
      mem s' !! addr =
        Some (AsAtomic32.to_storage_type (Z.lor (Z.land v0 (Z.lnot mask)) bits)) /\
      in_range T v0 /\
      (v0 = v \/ In (OtherStore addr (AsAtomic32.to_storage_type v0)) (sched s)).
Proof.
  intros Hw Hb Hmask Hd.
  induction fuel as [| fuel IH]; intros s v Hv Hm Hcanon Hlen; [lia |].
  cbn [AsAtomic32.SetBits_loop].
  unfold AsAtomic32.Relaxed_Load, AsAtomic32.Release_CompareAndSwap,
    AsAtomic32.to_storage_addr.
  destruct (Relaxed_Load_at addr s _ Hm) as (s1 & w1 & Hload & Hm1 & Hsch1 & Hw1).
  assert (Hv1 : exists v1, in_range T v1 /\ w1 = AsAtomic32.to_storage_type v1 /\
                  (v1 = v \/ In (OtherStore addr (AsAtomic32.to_storage_type v1)) (sched s))).
  { destruct Hw1 as [-> | Hh].
    - exists v. split; [assumption |]. split; [reflexivity | left; reflexivity].
    - apply In_head in Hh. destruct (Hcanon _ Hh) as (u & Hu & ->).
      exists u. split; [assumption |]. split; [reflexivity | right; exact Hh]. }
  destruct Hv1 as (v1 & Hr1 & -> & Hfrom1).
  erewrite (bind_Ok (bind _ _)); [| rewrite (bind_Ok _ _ _ _ _ Hload); reflexivity].
  rewrite AsAtomic32_roundtrip by assumption.
  destruct (Z.eqb_spec (Z.land v1 mask) bits) as [Heq | Hneq].
  - exists s1, v1. split; [| split; [| split; assumption]].
    + apply Z.eqb_eq in Heq. rewrite Heq. reflexivity.
    + rewrite (set_bits_when_already_set v1 bits mask Heq). exact Hm1.
  - assert (Hnew : in_range T (Z.lor (Z.land v1 (Z.lnot mask)) bits))
      by (apply in_range_set_bits; assumption).
    rewrite (static_cast_id T _ Hnew).
    destruct (Release_CompareAndSwap_at addr (AsAtomic32.to_storage_type v1)
                (AsAtomic32.to_storage_type (Z.lor (Z.land v1 (Z.lnot mask)) bits))
                s1 _ Hm1) as (s2 & w2 & Hcas & Hm2 & Hsch2 & Hw2).
    erewrite (bind_Ok (bind _ _)); [| rewrite (bind_Ok _ _ _ _ _ Hcas); reflexivity].
    pose proof (length_tail_le (sched s)) as Hle1. rewrite <- Hsch1 in Hle1.
    pose proof (length_tail_le (sched s1)) as Hle2. rewrite <- Hsch2 in Hle2.
    destruct Hw2 as [-> | Hh2].
    + rewrite AsAtomic32_roundtrip by assumption.
      rewrite Z.eqb_refl in Hm2. rewrite Z.eqb_refl. simpl negb. cbv iota.
      exists s2, v1. split; [| split; [exact Hm2 | split; assumption]].
      apply Z.eqb_neq in Hneq. rewrite Hneq. reflexivity.
    + assert (Hin2 : In (OtherStore addr w2) (sched s)).
      { apply In_tail. rewrite <- Hsch1. apply In_head. exact Hh2. }
      destruct (Hcanon _ Hin2) as (v2 & Hr2 & ->).
      rewrite AsAtomic32_roundtrip by assumption.
      destruct (Z.eqb_spec v2 v1) as [-> | Hdiff].
      * rewrite Z.eqb_refl in Hm2. simpl negb. cbv iota.
        exists s2, v1. split; [| split; [exact Hm2 | split; assumption]].
        apply Z.eqb_neq in Hneq. rewrite Hneq. reflexivity.
      * simpl negb. cbv iota.
        assert (Hwne : (AsAtomic32.to_storage_type v2 =? AsAtomic32.to_storage_type v1) = false).
        { apply Z.eqb_neq. intros Heqw. apply Hdiff.
          apply (AsAtomic32_to_storage_type_inj T); assumption. }
        rewrite Hwne in Hm2.
        assert (Hshorter : (length (sched s2) < length (sched s1))%nat).
        { rewrite Hsch2. destruct (sched s1); [discriminate Hh2 | simpl; lia]. }
        destruct (IH s2 v2 Hr2 Hm2) as (s' & v0 & Hrun & Hm' & Hr0 & Hfrom0).
        -- intros x Hx. apply Hcanon. rewrite Hsch2 in Hx. apply In_tail in Hx.
           rewrite Hsch1 in Hx. apply In_tail in Hx. exact Hx.
        -- lia.
        -- exists s', v0. split; [exact Hrun |]. split; [exact Hm' |].
           split; [exact Hr0 |].
           right. destruct Hfrom0 as [-> | Hx]; [exact Hin2 |].
           rewrite Hsch2 in Hx. apply In_tail in Hx.
           rewrite Hsch1 in Hx. apply In_tail in Hx. exact Hx.
Qed.

(** X18.  When the other threads store values of the location's type,
    however they interleave, and the budget exceeds the length of their
    schedule, [AsAtomic32::SetBits] returns; afterwards the bits selected by
    the mask are the requested ones, the rest are those of a value [v0] that
    was current, and the answer is [false] exactly when [v0] already had the
    requested bits, so that nothing had to be written. *)
Theorem AsAtomic32_SetBits_answers_whether_it_wrote
    (T : IntType) (fuel : nat) (addr : Address) (s : State) (v bits mask : Z) :
  width T <= width kAtomic32 ->
  in_range T v -> in_range T bits -> in_range T mask ->
  Z.land bits (Z.lnot mask) = 0 ->
  mem s !! addr = Some (AsAtomic32.to_storage_type v) ->
  (forall x, In (OtherStore addr x) (sched s) ->
     exists u, in_range T u /\ x = AsAtomic32.to_storage_type u) ->
  (length (sched s) < fuel)%nat ->
  exists s' v0 answer,
    AsAtomic32.SetBits T fuel addr bits mask s = Ok answer s' /\
    mem s' !! addr =
      Some (AsAtomic32.to_storage_type (Z.lor (Z.land v0 (Z.lnot mask)) bits)) /\
    in_range T v0 /\
    (v0 = v \/ In (OtherStore addr (AsAtomic32.to_storage_type v0)) (sched s)) /\
    (answer = false <-> Z.land v0 mask = bits) /\
    Z.land (Z.lor (Z.land v0 (Z.lnot mask)) bits) mask = bits.
Proof.
  intros Hw Hv Hb Hmask Hd Hm Hcanon Hlen.
  destruct (AsAtomic32_SetBits_loop_under_interference T addr bits mask Hw Hb Hmask Hd
              fuel s v Hv Hm Hcanon Hlen) as (s' & v0 & Hrun & Hm' & Hr0 & Hfrom).
  exists s', v0, (negb (Z.land v0 mask =? bits)).
  split; [| split; [exact Hm' | split; [exact Hr0 | split; [exact Hfrom | split]]]].
  - unfold AsAtomic32.SetBits, DCHECK_EQ, DCHECK.
    rewrite Hd, static_cast_zero. exact Hrun.
  - rewrite negb_false_iff. apply Z.eqb_eq.
  - apply land_mask_after_set_bits. exact Hd.
Qed.

Lemma AsAtomic32_SetBits_under_interference_scenario :
  exists s' answer,
    AsAtomic32.SetBits UInt32 3 100 4 12
      {| mem := {[100 := 9]}; trace := []; sched := [OtherStore 100 5] |} = Ok answer s'.
Proof.
  destruct (AsAtomic32_SetBits_answers_whether_it_wrote UInt32 3 100
              {| mem := {[100 := 9]}; trace := []; sched := [OtherStore 100 5] |} 9 4 12)
    as (s' & v0 & answer & Hrun & _).
  - discriminate.
  - in_range_by_computation.
  - in_range_by_computation.
  - in_range_by_computation.
  - reflexivity.
  - reflexivity.
  - intros x [Hx | []]. injection Hx as <-.
    exists 5. split; [in_range_by_computation | reflexivity].
  - simpl. lia.
  - exists s', answer. exact Hrun.
Defined.
